(** * a9bsp: an accessible front end to a boolean satisfiability solver

    Shallow embedding of [a9bsp.py] (class [AccessibleBSP]) and the
    verification of its registry, its constraint compilation, its solution
    queries, its partition search and its DIMACS export.

    Python integers are unbounded, so identifiers and literals are [Z].
    The two dictionaries [e2id] and [id2e] are [gmap]s, Python sets and
    frozensets are [gset]s, tuples and lists are [list]s.  Exceptions are the
    left injection of a sum; methods that mutate [self] are computations of a
    state-and-exception monad that keeps the mutated state when it raises. *)

From Stdlib Require Import ZArith String DecimalString.
From stdpp Require Import base gmap sets list strings sorting.

Local Open Scope Z_scope.

(** ** Exceptions *)

(** The exception classes of the module plus the built-in ones its code can
    raise. *)
Inductive exn : Type :=
  | UnsatisfiableConstraints
  | SolutionNotFound
  | ValueError
  | KeyError
  | NameError
  | TypeError
  | IndexError.

#[global] Instance exn_eq_dec : EqDecision exn.
Proof. solve_decision. Defined.

Definition result (A : Type) : Type := (exn + A)%type.

Definition rbind {A B} (r : result A) (k : A → result B) : result B :=
  match r with
  | inl e => inl e
  | inr a => k a
  end.

(** ** The solving engine (pycosat) *)

(** What [pycosat.solve] returns: a model, or one of the strings ["UNSAT"]
    and ["UNKNOWN"]. *)
Inductive solve_result : Type :=
  | Model (m : list Z)
  | UNSAT
  | UNKNOWN.

(** The engine is an interface: [solve] is [pycosat.solve] and [itersolve]
    is [pycosat.itersolve], whose iterator is the list of what it yields. *)
Class Engine : Type := {
  solve : list (list Z) → solve_result;
  itersolve : list (list Z) → list (list Z)
}.

(** ** Truth assignments and CNF *)

Definition assignment : Type := Z → bool.

Definition lit_true (v : assignment) (l : Z) : bool :=
  if 0 <? l then v l else negb (v (- l)).

Definition clause_true (v : assignment) (c : list Z) : bool :=
  existsb (lit_true v) c.

Definition cnf_true (v : assignment) (cs : list (list Z)) : bool :=
  forallb (clause_true v) cs.

(** The assignment a model denotes: a variable is true when its positive
    literal is in the model. *)
Definition model_assignment (m : list Z) : assignment :=
  λ i, bool_decide (i ∈ m).

(** How many positions of [ids] hold a true variable. *)
Definition count_true (v : assignment) (ids : list Z) : nat :=
  length (filter (λ i, v i = true) ids).

(** [itertools.combinations(l, r)]: the [r]-long subsequences of [l] in
    lexicographic order of their positions. *)
Fixpoint combinations {A} (l : list A) (r : nat) : list (list A) :=
  match r, l with
  | O, _ => [[]]
  | S _, [] => []
  | S r', x :: l' => map (cons x) (combinations l' r') ++ combinations l' r
  end.

(** Sets that have no member in common, two by two. *)
Definition pairwise_disjoint `{Countable A} (l : list (gset A)) : Prop :=
  ∀ i j x y, i ≠ j → l !! i = Some x → l !! j = Some y → x ## y.

(** A vertex of the search graph: a tuple of candidate solutions. *)
Abbreviation vertex := (list (gset Z)).

Section a9bsp.
Context {E : Type} `{Countable E}.
Context `{Engine}.

(** ** The problem: the fields of [AccessibleBSP] *)

Record AccessibleBSP : Type := mkBSP {
  clauses : list (list Z);
  e2id : gmap E Z;
  id2e : gmap Z E;
  variables : Z
}.

(** [__init__] *)
Definition init : AccessibleBSP :=
  {| clauses := []; e2id := ∅; id2e := ∅; variables := 0 |}.

(** ** State-and-exception monad of the mutating methods *)

Definition M (A : Type) : Type := AccessibleBSP → result A * AccessibleBSP.

#[export] Instance M_ret : MRet M := λ A a s, (inr a, s).

#[export] Instance M_bind : MBind M := λ A B k c s,
  match c s with
  | (inl e, s') => (inl e, s')
  | (inr a, s') => k a s'
  end.

Definition raise {A} (e : exn) : M A := λ s, (inl e, s).

Definition get : M AccessibleBSP := λ s, (inr s, s).

Definition put (s : AccessibleBSP) : M unit := λ _, (inr tt, s).

Definition lift {A} (r : result A) : M A := λ s, (r, s).

(** A list comprehension or [for] loop whose body is a computation. *)
Fixpoint mapM {A B} (f : A → M B) (l : list A) : M (list B) :=
  match l with
  | [] => mret []
  | a :: l' => b ← f a; bs ← mapM f l'; mret (b :: bs)
  end.

Fixpoint forM_ {A} (f : A → M unit) (l : list A) : M unit :=
  match l with
  | [] => mret tt
  | a :: l' => f a;; forM_ f l'
  end.

(** The state a computation leaves and the value it returns. *)
Definition exec {A} (c : M A) (s : AccessibleBSP) : AccessibleBSP := (c s).2.
Definition eval {A} (c : M A) (s : AccessibleBSP) : result A := (c s).1.

(** ** ElementRegistry *)

(** [self.e2id[element]] and [self.id2e[eid]]: a missing key raises. *)
Definition e2id_getitem (s : AccessibleBSP) (element : E) : result Z :=
  match e2id s !! element with
  | Some i => inr i
  | None => inl KeyError
  end.

Definition to_id (element : E) : M Z :=
  s ← get;
  (if decide (e2id s !! element = None) then
     let v := variables s + 1 in
     put {| clauses := clauses s;
            e2id := <[element := v]> (e2id s);
            id2e := <[v := element]> (id2e s);
            variables := v |}
   else mret tt);;
  s' ← get;
  lift (e2id_getitem s' element).

Definition from_id (s : AccessibleBSP) (eid : Z) : result E :=
  match id2e s !! eid with
  | Some e => inr e
  | None => inl KeyError
  end.

(** [set((self.from_id(i) for i in solution if i > 0))] *)
Fixpoint remap_solution (s : AccessibleBSP) (solution : list Z)
  : result (gset E) :=
  match solution with
  | [] => inr ∅
  | i :: rest =>
      if 0 <? i then
        rbind (from_id s i) (λ e,
        rbind (remap_solution s rest) (λ acc, inr ({[e]} ∪ acc)))
      else remap_solution s rest
  end.

(** ** ConstraintBuilder *)

(** [self.clauses.append(clause)] *)
Definition append_clause (clause : list Z) : M unit :=
  s ← get;
  put {| clauses := clauses s ++ [clause];
         e2id := e2id s;
         id2e := id2e s;
         variables := variables s |}.

(** [itertools.combinations] refuses a negative length. *)
Definition itertools_combinations {A} (l : list A) (r : Z)
  : result (list (list A)) :=
  if r <? 0 then inl ValueError else inr (combinations l (Z.to_nat r)).

Definition mutually_excludes (elements : list E) : M unit :=
  clause ← mapM (λ e, i ← to_id e; mret (- i)) elements;
  append_clause clause.

Definition includes (element : E) : M unit :=
  i ← to_id element;
  append_clause [i].

Definition includes_all (elements : list E) : M unit :=
  forM_ includes elements.

Definition includes_any (elements : list E) (n : Z) : M unit :=
  elements ← mapM to_id elements;
  let element_len := Z.of_nat (length elements) in
  let combination_length := element_len + 1 - n in
  combs ← lift (itertools_combinations elements combination_length);
  forM_ (λ combination, append_clause combination) combs.

Definition excludes (element : E) : M unit :=
  i ← to_id element;
  append_clause [- i].

Definition has_codependencies (elements : list E) : M unit :=
  ids ← mapM to_id elements;
  combs ← lift (itertools_combinations ids 2);
  forM_ (λ jk,
           match jk with
           | [j; k] => append_clause [j; - k];; append_clause [- j; k]
           | _ => raise ValueError
           end) combs.

(** [on] defaults to [None], which cannot be iterated; [n] defaults to
    [None], which stands for the length of [on]. *)
Definition has_dependencies (element : E) (on : option (list E))
    (n : option Z) : M unit :=
  eid ← to_id element;
  on ← match on with
       | Some l => mapM to_id l
       | None => raise TypeError
       end;
  let len_on := Z.of_nat (length on) in
  let n := match n with None => len_on | Some n => n end in
  combs ← lift (itertools_combinations on (len_on + 1 - n));
  forM_ (λ combination, append_clause ((- eid) :: combination)) combs.

(** ** SolutionSession *)

Definition solution (s : AccessibleBSP) : result (gset E) :=
  match solve (clauses s) with
  | UNSAT => inl UnsatisfiableConstraints
  | UNKNOWN => inl SolutionNotFound
  | Model m => remap_solution s m
  end.

(** The generator [solutions]: the list holds what each [next] gives, a
    yielded set or the exception that ends the generator; past the end of
    the list the generator is exhausted.  A consumer that stops early never
    sees the later entries. *)
Fixpoint solutions_loop (s : AccessibleBSP) (models : list (list Z))
    (solution_found : bool) : list (result (gset E)) :=
  match models with
  | m :: rest =>
      match remap_solution s m with
      | inl e => [inl e]
      | inr sol => inr sol :: solutions_loop s rest true
      end
  | [] =>
      if negb solution_found then
        match solution s with
        | inl e => [inl e]
        | inr _ => []
        end
      else []
  end.

Definition solutions (s : AccessibleBSP) : list (result (gset E)) :=
  solutions_loop s (itersolve (clauses s)) false.

(** [len(solution) < lastlen]: the name [lastlen] is bound nowhere in
    [minimal_solution] nor in the module, so evaluating it raises. *)
Definition lastlen : result Z := inl NameError.

(** The loop of [minimal_solution] over the generator; [last] is [None]
    or the retained solution.  [or] evaluates its right operand only when
    [last is None] is false. *)
Fixpoint minimal_solution_loop (last : option (gset E))
    (gen : list (result (gset E))) : result (option (gset E)) :=
  match gen with
  | [] => inr last
  | inl e :: _ => inl e
  | inr sol :: rest =>
      rbind (match last with
             | None => inr true
             | Some _ => rbind lastlen (λ ll, inr (Z.of_nat (size sol) <? ll))
             end) (λ take,
      if take : bool then
        if decide (sol = ∅) then inr (Some sol)
        else minimal_solution_loop (Some sol) rest
      else minimal_solution_loop last rest)
  end.

Definition minimal_solution (s : AccessibleBSP) : result (option (gset E)) :=
  minimal_solution_loop None (solutions s).

Fixpoint maximal_solution_loop (s : AccessibleBSP) (last : option (gset E))
    (gen : list (result (gset E))) : result (option (gset E)) :=
  match gen with
  | [] => inr last
  | inl e :: _ => inl e
  | inr sol :: rest =>
      let len_solution := Z.of_nat (size sol) in
      let take := match last with
                  | None => true
                  | Some l => Z.of_nat (size l) <? len_solution
                  end in
      if take then
        if decide (len_solution = variables s) then inr (Some sol)
        else maximal_solution_loop s (Some sol) rest
      else maximal_solution_loop s last rest
  end.

Definition maximal_solution (s : AccessibleBSP) : result (option (gset E)) :=
  maximal_solution_loop s None (solutions s).

(** ** SolutionPartitioner *)

(** [frozenset((i for i in solution if i > 0))] *)
Definition posset (m : list Z) : gset Z :=
  list_to_set (filter (λ i, 0 < i) m).

(** [l.pop()], also [(l[:-1], l[-1])]: the list without its last entry,
    and that entry. *)
Fixpoint pop {A} (l : list A) : option (list A * A) :=
  match l with
  | [] => None
  | x :: l' =>
      match pop l' with
      | None => Some ([], x)
      | Some (r, y) => Some (x :: r, y)
      end
  end.

(** [solutions.sort(key=lambda x: -len(x))]: the sort is stable, so a
    solution goes before the first one that is not larger than it. *)
Fixpoint sort_insert (x : gset Z) (l : list (gset Z)) : list (gset Z) :=
  match l with
  | [] => [x]
  | y :: l' =>
      if decide (- Z.of_nat (size x) ≤ - Z.of_nat (size y))
      then x :: l
      else y :: sort_insert x l'
  end.

Definition sort_by_neg_len (l : list (gset Z)) : list (gset Z) :=
  foldr sort_insert [] l.

(** The loop that fills [solutions] from the engine's enumeration. *)
Definition collect_solutions (models : list (list Z))
    (max_group_size : option Z) : list (gset Z) :=
  omap (λ solution,
          let solset := posset solution in
          match max_group_size with
          | None => Some (posset solution)
          | Some mgs =>
              if decide (Z.of_nat (size solset) ≤ mgs)
              then Some (posset solution) else None
          end) models.

(** The state of the [while stack] loop.  The edge lists are mutable and
    shared: [graph] keeps, for each visited vertex, the address in [heap]
    of its edge list, and a child stores the very address of its parent. *)
Record dfs_state : Type := mkDfs {
  stack : list vertex;
  graph : gmap vertex (nat * gset Z);
  heap : list (list vertex)
}.

(** [edges.append(new_vertex)] on the list at address [r]. *)
Definition heap_append (hp : list (list vertex)) (r : nat) (v : vertex)
  : list (list vertex) :=
  match hp !! r with
  | Some edges => <[r := edges ++ [v]]> hp
  | None => hp
  end.

(** The [for solution in candidates] loop of one vertex; it returns the
    completed path, or the heap with the new edges appended. *)
Fixpoint scan_candidates (target_pool_size : Z) (vtx : vertex)
    (pool : gset Z) (r : nat) (candidates : list (gset Z))
    (hp : list (list vertex)) : vertex + list (list vertex) :=
  match candidates with
  | [] => inr hp
  | solution :: rest =>
      let pool_size := Z.of_nat (size pool) in
      let max_size := target_pool_size - pool_size in
      if decide (max_size < Z.of_nat (size solution)
                 ∨ solution ∈ vtx
                 ∨ solution ∩ pool ≠ ∅)
      then scan_candidates target_pool_size vtx pool r rest hp
      else
        let new_vertex := vtx ++ [solution] in
        if decide (pool_size + Z.of_nat (size solution) = target_pool_size)
        then inl new_vertex
        else scan_candidates target_pool_size vtx pool r rest
               (heap_append hp r new_vertex)
  end.

(** [[e[-1] for e in edges]] *)
Fixpoint last_of_each (edges : list vertex) : result (list (gset Z)) :=
  match edges with
  | [] => inr []
  | e :: rest =>
      match pop e with
      | None => inl IndexError
      | Some (_, x) => rbind (last_of_each rest) (λ xs, inr (x :: xs))
      end
  end.

(** What one turn of the [while] loop does with the popped vertex when it
    is not in [graph] yet. *)
Definition visit (solutions : list (gset Z)) (target_pool_size : Z)
    (vtx : vertex) (stack' : list vertex) (st : dfs_state)
  : result (vertex + dfs_state) :=
  rbind
    (if decide (length vtx = 1%nat) then
       match vtx with
       | v0 :: _ => inr (length (heap st), heap st ++ [[]], solutions, v0)
       | [] => inl IndexError
       end
     else
       match pop vtx with
       | None => inl KeyError
       | Some (parent, vlast) =>
           match graph st !! parent with
           | None => inl KeyError
           | Some (r, pool) =>
               match heap st !! r with
               | None => inl KeyError
               | Some edges =>
                   rbind (last_of_each edges) (λ candidates,
                   inr (r, heap st, candidates, pool ∪ vlast))
               end
           end
       end)
    (λ '(r, hp, candidates, pool),
       match scan_candidates target_pool_size vtx pool r candidates hp with
       | inl new_vertex => inr (inl new_vertex)
       | inr hp' =>
           inr (inr {| stack := stack' ++ default [] (hp' !! r);
                       graph := <[vtx := (r, pool)]> (graph st);
                       heap := hp' |})
       end).

(** The [while stack] loop; [None] when the fuel runs out, otherwise the
    exception raised, the path returned, or [inr None] when the stack
    empties. *)
Fixpoint while_stack (fuel : nat) (solutions : list (gset Z))
    (target_pool_size : Z) (st : dfs_state)
  : option (result (option vertex)) :=
  match fuel with
  | O => None
  | S fuel' =>
      match pop (stack st) with
      | None => Some (inr None)
      | Some (stack', vtx) =>
          match graph st !! vtx with
          | Some _ =>
              while_stack fuel' solutions target_pool_size
                {| stack := stack'; graph := graph st; heap := heap st |}
          | None =>
              match visit solutions target_pool_size vtx stack' st with
              | inl e => Some (inl e)
              | inr (inl new_vertex) => Some (inr (Some new_vertex))
              | inr (inr st') =>
                  while_stack fuel' solutions target_pool_size st'
              end
          end
      end
  end.

(** The [for solution in solutions] loop around it. *)
Fixpoint search_starts (fuel : nat) (solutions : list (gset Z))
    (target_pool_size : Z) (starts : list (gset Z))
  : option (result (option vertex)) :=
  match starts with
  | [] => Some (inr None)
  | solution :: rest =>
      match while_stack fuel solutions target_pool_size
              {| stack := [[solution]]; graph := ∅; heap := [] |} with
      | None => None
      | Some (inl e) => Some (inl e)
      | Some (inr (Some path)) => Some (inr (Some path))
      | Some (inr None) =>
          search_starts fuel solutions target_pool_size rest
      end
  end.

(** [[self.remap_solution(s) for s in new_vertex]] *)
Fixpoint remap_all (s : AccessibleBSP) (path : vertex)
  : result (list (gset E)) :=
  match path with
  | [] => inr []
  | x :: rest =>
      rbind (remap_solution s (elements x)) (λ y,
      rbind (remap_all s rest) (λ ys, inr (y :: ys)))
  end.

(** The search and the final [raise]. *)
Definition search_and_return (fuel : nat) (s : AccessibleBSP)
    (solutions : list (gset Z)) (target_pool_size : Z)
  : option (result (list (gset E))) :=
  match search_starts fuel solutions target_pool_size solutions with
  | None => None
  | Some (inl e) => Some (inl e)
  | Some (inr (Some path)) => Some (remap_all s path)
  | Some (inr None) => Some (inl UnsatisfiableConstraints)
  end.

(** [partition_solutions(max_group_size)]; [fuel] bounds the turns of each
    [while] loop, and [None] means it was not enough. *)
Definition partition_solutions (fuel : nat) (s : AccessibleBSP)
    (max_group_size : option Z) : option (result (list (gset E))) :=
  let models := itersolve (clauses s) in
  let solutions := collect_solutions models max_group_size in
  let actually_had_solution := negb (bool_decide (models = [])) in
  match solutions with
  | [] =>
      if actually_had_solution then Some (inl ValueError)
      else
        match solution s with
        | inl e => Some (inl e)
        | inr _ => search_and_return fuel s solutions 0
        end
  | [only] => Some (rbind (remap_solution s (elements only)) (λ x, inr [x]))
  | _ =>
      let target_pool_size := Z.of_nat (size (⋃ solutions)) in
      let solutions := sort_by_neg_len solutions in
      search_and_return fuel s solutions target_pool_size
  end.

(** ** Textual export *)

Section dimacs.
(** [repr] and [hash] of the caller's hashables. *)
Variable repr : E → string.
Variable hash : E → Z.

(** ["%d"] and [str] on an integer. *)
Definition str_int (z : Z) : string :=
  NilZero.string_of_int (Z.to_int z).

Definition newline : string :=
  String (Ascii.ascii_of_nat 10) EmptyString.

(** ["c %d = %r <%d>" % (key, hashable, hash(hashable))] *)
Definition comment_line (kv : Z * E) : string :=
  "c " +:+ str_int kv.1 +:+ " = " +:+ repr kv.2
       +:+ " <" +:+ str_int (hash kv.2) +:+ ">".

(** ["p cnf %d %d" % (len(self.clauses), self.variables)] *)
Definition problem_line (s : AccessibleBSP) : string :=
  "p cnf " +:+ str_int (Z.of_nat (length (clauses s)))
           +:+ " " +:+ str_int (variables s).

(** [" ".join(map(str, clause)) + " 0"] *)
Definition clause_line (clause : list Z) : string :=
  String.concat " " (map str_int clause) +:+ " 0".

(** [self.id2e.iteritems()]: Python leaves the order of a dictionary's
    items open; the model takes the order of [map_to_list]. *)
Definition iteritems (s : AccessibleBSP) : list (Z * E) :=
  map_to_list (id2e s).

Definition dimacs_lines (s : AccessibleBSP) : list string :=
  let lines := [] in
  let lines := lines ++ map comment_line (iteritems s) in
  let lines := lines ++ [problem_line s] in
  let lines := lines ++ map clause_line (clauses s) in
  lines.

Definition dimacs_cnf (s : AccessibleBSP) : string :=
  String.concat newline (dimacs_lines s) +:+ newline.

(** The slice [x[:-1]] of a string: all but its last character. *)
Fixpoint but_last (x : string) : string :=
  match x with
  | EmptyString => EmptyString
  | String c EmptyString => EmptyString
  | String c rest => String c (but_last rest)
  end.

(** ["Same as dimacs_cnf but strips the trailing newline"] *)
Definition __str__ (s : AccessibleBSP) : string :=
  but_last (dimacs_cnf s).
End dimacs.

(** ** The invariant of the registry *)

(** The two dictionaries are inverse of each other and hold exactly the
    identifiers [1 .. variables]. *)
Record wf (s : AccessibleBSP) : Prop := mkWf {
  wf_nonneg : 0 ≤ variables s;
  wf_inverse : ∀ e i, e2id s !! e = Some i ↔ id2e s !! i = Some e;
  wf_dense : ∀ i, is_Some (id2e s !! i) ↔ 1 ≤ i ≤ variables s
}.

End a9bsp.

(** ** A reference engine *)

(** A complete engine by truth table, standing for pycosat on small
    problems: the models over the variables [1 .. n], [n] the largest
    variable of the clauses. *)
Module Reference.

Definition max_var (cs : list (list Z)) : nat :=
  foldr (λ c acc, foldr (λ l a, Nat.max (Z.abs_nat l) a) acc c) O cs.

Fixpoint all_models (n : nat) : list (list Z) :=
  match n with
  | O => [[]]
  | S n' =>
      let v := Z.of_nat n in
      flat_map (λ m, [m ++ [- v]; m ++ [v]]) (all_models n')
  end.

Definition holds (m : list Z) (cs : list (list Z)) : bool :=
  forallb (existsb (λ l, bool_decide (l ∈ m))) cs.

Definition enumerate (cs : list (list Z)) : list (list Z) :=
  filter (λ m, holds m cs = true) (all_models (max_var cs)).

#[export] Instance engine : Engine := {|
  solve cs := match enumerate cs with
              | m :: _ => Model m
              | [] => UNSAT
              end;
  itersolve := enumerate
|}.

End Reference.

(** * Proofs *)

Section registry_proofs.
Context {E : Type} `{Countable E}.

Implicit Types (s : AccessibleBSP (E := E)) (e : E) (i : Z).

Lemma wf_init : wf (init (E := E)).
Proof.
  split; simpl.
  - lia.
  - intros e i. by rewrite !lookup_empty.
  - intros i. rewrite lookup_empty. split; [by intros [? ?] | lia].
Qed.

Lemma bind_run {A B} (c : M A) (k : A → M B) s :
  (c ≫= k) s =
    match c s with
    | (inl x, s') => (inl x, s')
    | (inr a, s') => k a s'
    end.
Proof. done. Qed.

Lemma ret_run {A} (a : A) s : (mret a : M A) s = (inr a, s).
Proof. done. Qed.

Lemma mapM_cons_run {A B} (f : A → M B) (a : A) (l : list A) s :
  mapM f (a :: l) s =
    match f a s with
    | (inl x, s1) => (inl x, s1)
    | (inr b, s1) =>
        match mapM f l s1 with
        | (inl x, s2) => (inl x, s2)
        | (inr bs, s2) => (inr (b :: bs), s2)
        end
    end.
Proof.
  simpl. rewrite bind_run. destruct (f a s) as [[x | b] s1]; [done |].
  rewrite bind_run. by destruct (mapM f l s1) as [[x | bs] s2].
Qed.

(** [to_id] on an element already in [e2id]. *)
Lemma to_id_known s e i :
  e2id s !! e = Some i → to_id e s = (inr i, s).
Proof.
  intros Hl. unfold to_id, mbind, M_bind, get, put, mret, M_ret, lift.
  destruct (decide (e2id s !! e = None)) as [Hn | _]; [congruence |].
  unfold e2id_getitem. by rewrite Hl.
Qed.

(** [to_id] on a new element. *)
Lemma to_id_fresh s e :
  e2id s !! e = None →
  to_id e s =
    (inr (variables s + 1),
     {| clauses := clauses s;
        e2id := <[e := variables s + 1]> (e2id s);
        id2e := <[variables s + 1 := e]> (id2e s);
        variables := variables s + 1 |}).
Proof.
  intros Hl. unfold to_id, mbind, M_bind, get, put, mret, M_ret, lift.
  destruct (decide (e2id s !! e = None)) as [_ | Hn]; [| congruence].
  unfold e2id_getitem. simpl. by rewrite lookup_insert_eq.
Qed.

(** [to_id] never raises; it leaves the clauses and the identifiers
    already given alone. *)
Lemma to_id_total s e :
  ∃ i s', to_id e s = (inr i, s')
          ∧ e2id s' !! e = Some i
          ∧ clauses s' = clauses s
          ∧ (∀ e' j, e2id s !! e' = Some j → e2id s' !! e' = Some j).
Proof.
  destruct (e2id s !! e) as [i |] eqn:Hl.
  - exists i, s. by rewrite (to_id_known _ _ _ Hl).
  - eexists _, _. split; [exact (to_id_fresh _ _ Hl) |]. simpl.
    split_and!; [by rewrite lookup_insert_eq | done |].
    intros e' j Hj. rewrite lookup_insert_ne; [done | congruence].
Qed.

Lemma to_id_wf s e : wf s → wf (to_id e s).2.
Proof.
  intros [Hnn Hinv Hdense].
  destruct (e2id s !! e) as [i |] eqn:Hl.
  - by rewrite (to_id_known _ _ _ Hl).
  - rewrite (to_id_fresh _ _ Hl). simpl.
    assert (Hfree : id2e s !! (variables s + 1) = None).
    { destruct (id2e s !! (variables s + 1)) as [x |] eqn:Hx; [| done].
      assert (is_Some (id2e s !! (variables s + 1))) as Hs by eauto.
      apply Hdense in Hs. lia. }
    split; simpl.
    + lia.
    + intros e' j. destruct (decide (e = e')) as [<- | Hne].
      * rewrite lookup_insert_eq.
        destruct (decide (variables s + 1 = j)) as [<- | Hnj].
        -- by rewrite lookup_insert_eq.
        -- rewrite lookup_insert_ne by done. split; [congruence |].
           intros Hj. apply Hinv in Hj. congruence.
      * rewrite lookup_insert_ne by done.
        destruct (decide (variables s + 1 = j)) as [<- | Hnj].
        -- rewrite lookup_insert_eq. split; [| congruence].
           intros Hj. apply Hinv in Hj. congruence.
        -- rewrite lookup_insert_ne by done. apply Hinv.
    + intros j. destruct (decide (variables s + 1 = j)) as [<- | Hnj].
      * rewrite lookup_insert_eq. split; [lia | eauto].
      * rewrite lookup_insert_ne by done. rewrite Hdense. lia.
Qed.

(** In a well-formed registry every identifier is positive. *)
Lemma wf_id_pos s e i : wf s → e2id s !! e = Some i → 0 < i.
Proof.
  intros Hwf Hl. apply (wf_inverse _ Hwf) in Hl.
  assert (is_Some (id2e s !! i)) as Hs by eauto.
  apply (wf_dense _ Hwf) in Hs. lia.
Qed.

Lemma wf_e2id_inj s e1 e2 i :
  wf s → e2id s !! e1 = Some i → e2id s !! e2 = Some i → e1 = e2.
Proof.
  intros Hwf H1%(wf_inverse _ Hwf) H2%(wf_inverse _ Hwf). congruence.
Qed.

Lemma wf_id2e_inj s i1 i2 e :
  wf s → id2e s !! i1 = Some e → id2e s !! i2 = Some e → i1 = i2.
Proof.
  intros Hwf H1%(wf_inverse _ Hwf) H2%(wf_inverse _ Hwf). congruence.
Qed.

(** The comprehension [[self.to_id(e) for e in elements]]. *)
Lemma mapM_to_id_total s (es : list E) :
  ∃ ids s', mapM to_id es s = (inr ids, s')
            ∧ Forall2 (λ e i, e2id s' !! e = Some i) es ids
            ∧ clauses s' = clauses s
            ∧ (∀ e' j, e2id s !! e' = Some j → e2id s' !! e' = Some j)
            ∧ (wf s → wf s').
Proof.
  revert s. induction es as [| e es IH]; intros s.
  - exists [], s. by split_and!.
  - destruct (to_id_total s e) as (i & s1 & Hto & Hi & Hc & Hkeep).
    destruct (IH s1) as (ids & s2 & Hm & Hall & Hc2 & Hkeep2 & Hwf2).
    exists (i :: ids), s2. split_and!.
    + simpl. unfold mbind, M_bind. rewrite Hto, Hm. done.
    + constructor; [by apply Hkeep2 | done].
    + congruence.
    + eauto.
    + intros Hwf. apply Hwf2. pose proof (to_id_wf s e Hwf) as Hw.
      by rewrite Hto in Hw.
Qed.

Lemma from_id_Some s i e : id2e s !! i = Some e → from_id s i = inr e.
Proof. intros Hl. unfold from_id. by rewrite Hl. Qed.

Lemma from_id_None s i : id2e s !! i = None → from_id s i = inl KeyError.
Proof. intros Hl. unfold from_id. by rewrite Hl. Qed.

End registry_proofs.

(** ** Combinations and cardinality clauses *)

Section combinations_proofs.
Context {A : Type}.
Implicit Types (l c : list A) (r : nat).

(** [combinations l r] lists the subsequences of [l] of length [r]. *)
Lemma elem_of_combinations l r c :
  c ∈ combinations l r ↔ sublist c l ∧ length c = r.
Proof.
  revert r c. induction l as [| x l IH]; intros r c.
  - destruct r as [| r]; simpl.
    + rewrite list_elem_of_singleton. split.
      * intros ->. split; [constructor | done].
      * intros [_ Hlen]. by apply nil_length_inv.
    + rewrite elem_of_nil. split; [done |].
      intros [Hsub Hlen]. apply sublist_nil_r in Hsub. by subst.
  - destruct r as [| r]; simpl.
    + rewrite list_elem_of_singleton. split.
      * intros ->. split; [apply sublist_nil_l | done].
      * intros [_ Hlen]. by apply nil_length_inv.
    + rewrite elem_of_app, list_elem_of_fmap. split.
      * intros [(c' & -> & Hc') | Hc].
        -- apply IH in Hc' as [Hsub Hlen]. split; [by constructor |].
           simpl. by rewrite Hlen.
        -- apply IH in Hc as [Hsub Hlen]. split; [by constructor | done].
      * intros [Hsub Hlen]. apply sublist_cons_r in Hsub.
        destruct Hsub as [Hsub | (c' & -> & Hsub)].
        -- right. apply IH. done.
        -- left. exists c'. split; [done |]. apply IH.
           simpl in Hlen. split; [done | lia].
Qed.

(** Distinct entries give distinct combinations: one per subset. *)
Lemma NoDup_combinations l r : NoDup l → NoDup (combinations l r).
Proof.
  revert r. induction l as [| x l IH]; intros r Hnd.
  - destruct r; simpl; [apply NoDup_singleton | constructor].
  - destruct r as [| r]; simpl; [apply NoDup_singleton |].
    apply NoDup_cons in Hnd as [Hx Hnd].
    apply NoDup_app. split_and!.
    + apply (NoDup_fmap_2 _). by apply IH.
    + intros c (c' & -> & _)%list_elem_of_fmap Hc.
      apply elem_of_combinations in Hc as [Hsub _].
      apply Hx. apply (sublist_subseteq _ _ Hsub). left.
    + by apply IH.
Qed.

End combinations_proofs.

Section cardinality_proofs.
Implicit Types (v : assignment) (ids c : list Z).

Lemma lit_true_pos v i : 0 < i → lit_true v i = v i.
Proof.
  intros Hi. unfold lit_true.
  by destruct (Z.ltb_spec 0 i); [| lia].
Qed.

Lemma lit_true_neg v i : 0 < i → lit_true v (- i) = negb (v i).
Proof.
  intros Hi. unfold lit_true.
  destruct (Z.ltb_spec 0 (- i)); [lia |]. by rewrite Z.opp_involutive.
Qed.

Lemma clause_true_app v c1 c2 :
  clause_true v (c1 ++ c2) = clause_true v c1 || clause_true v c2.
Proof. apply existsb_app. Qed.

Lemma cnf_true_app v cs1 cs2 :
  cnf_true v (cs1 ++ cs2) = cnf_true v cs1 && cnf_true v cs2.
Proof. apply forallb_app. Qed.

Lemma cnf_true_Forall v cs :
  cnf_true v cs = true ↔ Forall (λ c, clause_true v c = true) cs.
Proof.
  induction cs as [| c cs IH]; simpl; [by split |].
  by rewrite andb_true_iff, Forall_cons, IH.
Qed.

(** A clause of positive literals holds when one of its variables does. *)
Lemma clause_true_positive v c :
  Forall (λ i, 0 < i) c →
  clause_true v c = true ↔ Exists (λ i, v i = true) c.
Proof.
  induction 1 as [| i c Hi _ IH]; simpl.
  - split; [done | by intros ?%Exists_nil].
  - rewrite Exists_cons, orb_true_iff, IH. by rewrite lit_true_pos.
Qed.

(** The clause of the negations fails exactly when every variable holds. *)
Lemma clause_true_negated v ids :
  Forall (λ i, 0 < i) ids →
  clause_true v (map Z.opp ids) = true ↔ ¬ Forall (λ i, v i = true) ids.
Proof.
  induction 1 as [| i ids Hi _ IH]; simpl.
  - split; [done | intros Hn; by destruct Hn].
  - rewrite orb_true_iff, IH, lit_true_neg by done.
    rewrite Forall_cons. destruct (v i); simpl.
    + split; [intros [? | ?]; [done | tauto] | intros Hn; right; tauto].
    + split; [intros _ [? _]; done | by left].
Qed.

Lemma count_true_cons v i ids :
  count_true v (i :: ids) =
    (if v i then S (count_true v ids) else count_true v ids).
Proof.
  unfold count_true. rewrite filter_cons.
  destruct (decide (v i = true)) as [-> | Hn]; [done |].
  by destruct (v i).
Qed.

Lemma count_true_le v ids : (count_true v ids ≤ length ids)%nat.
Proof. unfold count_true. apply length_filter. Qed.

(** The complementary-combinations encoding: the clauses over all the
    [r]-long combinations hold together exactly when fewer than [r]
    positions are false. *)
Lemma combinations_true v ids r :
  Forall (λ i, 0 < i) ids →
  Forall (λ c, clause_true v c = true) (combinations ids r)
  ↔ (length ids < r + count_true v ids)%nat.
Proof.
  intros Hpos. revert r.
  induction Hpos as [| i ids Hi Hpos IH]; intros r.
  - destruct r as [| r]; simpl.
    + rewrite Forall_singleton. simpl. split; [done | unfold count_true; simpl; lia].
    + split; [lia | constructor].
  - destruct r as [| r].
    + simpl. rewrite Forall_singleton. simpl.
      pose proof (count_true_le v (i :: ids)) as Hle. simpl in Hle.
      split; [done | lia].
    + simpl combinations. rewrite Forall_app, Forall_fmap, IH.
      rewrite count_true_cons. simpl length.
      destruct (v i) eqn:Hv.
      * split; [lia |]. intros Hlt. split; [| lia].
        apply Forall_forall. intros c _. simpl.
        by rewrite lit_true_pos, Hv.
      * assert (Forall ((λ c, clause_true v c = true) ∘ cons i)
                  (combinations ids r)
                ↔ Forall (λ c, clause_true v c = true) (combinations ids r))
          as ->.
        { apply Forall_proper; [| done]. intros c. simpl.
          by rewrite lit_true_pos, Hv. }
        rewrite !IH. lia.
Qed.

(** The same with a guard literal [- g] put before every combination. *)
Lemma guarded_combinations_true v g ids r :
  0 < g → Forall (λ i, 0 < i) ids →
  Forall (λ c, clause_true v c = true) (map (cons (- g)) (combinations ids r))
  ↔ (v g = true → (length ids < r + count_true v ids)%nat).
Proof.
  intros Hg Hpos. rewrite <- (combinations_true v ids r Hpos).
  rewrite Forall_fmap. destruct (v g) eqn:Hv.
  - split.
    + intros Hall _. eapply Forall_impl; [exact Hall |].
      intros c. simpl. by rewrite lit_true_neg, Hv.
    + intros Hall. eapply Forall_impl; [exact (Hall eq_refl) |].
      intros c. simpl. by rewrite lit_true_neg, Hv.
  - split; [done |]. intros _. apply Forall_forall. intros c _.
    simpl. by rewrite lit_true_neg, Hv.
Qed.

End cardinality_proofs.

(** ** ConstraintBuilder *)

Section builder_proofs.
Context {E : Type} `{Countable E}.

Implicit Types (s : AccessibleBSP (E := E)) (e : E) (i : Z).
Implicit Types (v : assignment) (ids : list Z).

(** The problem with more clauses and the same registry. *)
Local Abbreviation with_clauses s cs :=
  {| clauses := clauses s ++ cs; e2id := e2id s; id2e := id2e s;
     variables := variables s |}.

Lemma with_clauses_nil s : with_clauses s [] = s.
Proof. destruct s. simpl. by rewrite app_nil_r. Qed.

Lemma wf_with_clauses s cs : wf s → wf (with_clauses s cs).
Proof. intros [? ? ?]. by split. Qed.

Lemma append_clause_run s (c : list Z) :
  append_clause c s = (inr tt, with_clauses s [c]).
Proof. done. Qed.

(** A loop that appends one clause per entry appends them all, in order. *)
Lemma forM_append_run {B} (f : B → list Z) (l : list B) s :
  forM_ (λ b, append_clause (f b)) l s = (inr tt, with_clauses s (map f l)).
Proof.
  revert s. induction l as [| b l IH]; intros s; simpl.
  - unfold mret, M_ret. by rewrite with_clauses_nil.
  - unfold mbind, M_bind. rewrite append_clause_run, IH. simpl.
    by rewrite <- app_assoc.
Qed.

Lemma mapM_neg_to_id_run (es : list E) s ids s' :
  mapM to_id es s = (inr ids, s') →
  mapM (λ e, i ← to_id e; mret (- i)) es s = (inr (map Z.opp ids), s').
Proof.
  revert s ids. induction es as [| e es IH]; intros s ids; simpl.
  - unfold mret, M_ret. by intros [= <- <-].
  - rewrite !bind_run.
    destruct (to_id e s) as [[x | i] s1]; [done |].
    rewrite bind_run.
    destruct (mapM to_id es s1) as [[x | ids'] s2] eqn:Hm; [done |].
    intros [= <- <-]. rewrite ret_run, bind_run, (IH _ _ Hm). done.
Qed.

Lemma registered_pos s (es : list E) ids :
  wf s → Forall2 (λ e i, e2id s !! e = Some i) es ids →
  Forall (λ i, 0 < i) ids.
Proof.
  intros Hwf. induction 1 as [| e i es ids Hi _ IH]; constructor; [| done].
  by eapply wf_id_pos.
Qed.

Lemma registered_NoDup s (es : list E) ids :
  wf s → Forall2 (λ e i, e2id s !! e = Some i) es ids →
  NoDup es → NoDup ids.
Proof.
  intros Hwf. induction 1 as [| e i es ids Hi Hall IH]; intros Hnd.
  - constructor.
  - apply NoDup_cons in Hnd as [He Hnd]. apply NoDup_cons. split; [| auto].
    intros Hin. apply He. clear IH Hnd He.
    induction Hall as [| e' i' es ids Hi' _ IH]; [by apply elem_of_nil in Hin |].
    apply elem_of_cons in Hin as [-> | Hin].
    + rewrite (wf_e2id_inj s e e' i' Hwf Hi Hi'). left.
    + right. auto.
Qed.

(** [mutually_excludes] in full. *)
Lemma mutually_excludes_run s (es : list E) :
  ∃ ids s', mapM to_id es s = (inr ids, s')
    ∧ mutually_excludes es s = (inr tt, with_clauses s' [map Z.opp ids])
    ∧ Forall2 (λ e i, e2id s' !! e = Some i) es ids
    ∧ clauses s' = clauses s
    ∧ (wf s → wf s').
Proof.
  destruct (mapM_to_id_total s es) as (ids & s' & Hm & Hall & Hc & _ & Hwf).
  exists ids, s'. split_and!; try done.
  unfold mutually_excludes.
  by rewrite bind_run, (mapM_neg_to_id_run _ _ _ _ Hm).
Qed.

(** [includes_any] in full, for a length the combinations accept. *)
Lemma includes_any_run s (es : list E) n :
  n ≤ Z.of_nat (length es) + 1 →
  ∃ ids s', mapM to_id es s = (inr ids, s')
    ∧ includes_any es n s =
        (inr tt,
         with_clauses s'
           (combinations ids (Z.to_nat (Z.of_nat (length es) + 1 - n))))
    ∧ Forall2 (λ e i, e2id s' !! e = Some i) es ids
    ∧ clauses s' = clauses s
    ∧ (wf s → wf s').
Proof.
  intros Hn.
  destruct (mapM_to_id_total s es) as (ids & s' & Hm & Hall & Hc & _ & Hwf).
  exists ids, s'. split_and!; try done.
  unfold includes_any. rewrite bind_run, Hm.
  rewrite <- (Forall2_length _ _ _ Hall).
  rewrite bind_run. unfold lift, itertools_combinations.
  destruct (Z.ltb_spec (Z.of_nat (length es) + 1 - n) 0); [lia |].
  rewrite (forM_append_run (λ c, c)). by rewrite map_id.
Qed.

(** [has_dependencies] in full, for a length the combinations accept. *)
Lemma has_dependencies_run s e (on : list E) (n : option Z) :
  let m := Z.of_nat (length on) in
  let n' := match n with None => m | Some k => k end in
  n' ≤ m + 1 →
  ∃ eid ids s', (e2id s' !! e = Some eid)
    ∧ has_dependencies e (Some on) n s =
        (inr tt,
         with_clauses s'
           (map (cons (- eid)) (combinations ids (Z.to_nat (m + 1 - n')))))
    ∧ Forall2 (λ e i, e2id s' !! e = Some i) on ids
    ∧ clauses s' = clauses s
    ∧ (wf s → wf s').
Proof.
  intros m n' Hn.
  destruct (to_id_total s e) as (eid & s1 & Hto & He & Hc1 & _).
  destruct (mapM_to_id_total s1 on)
    as (ids & s' & Hm & Hall & Hc & Hkeep & Hwf).
  exists eid, ids, s'. split_and!; [by apply Hkeep | | done | congruence |].
  - unfold has_dependencies. rewrite bind_run, Hto, bind_run, Hm.
    rewrite <- (Forall2_length _ _ _ Hall). fold m. fold n'.
    rewrite bind_run. unfold lift, itertools_combinations.
    destruct (Z.ltb_spec (m + 1 - n') 0); [lia |].
    by rewrite (forM_append_run (cons (- eid))).
  - intros Hw. apply Hwf. pose proof (to_id_wf s e Hw) as Hw1.
    by rewrite Hto in Hw1.
Qed.

(** Every method keeps the registry well formed, whether it returns or
    raises. *)
Definition preserves_wf {B} (c : M (E := E) B) : Prop :=
  ∀ s, wf s → wf (c s).2.

Lemma preserves_wf_bind {B C} (c : M B) (k : B → M C) :
  preserves_wf c → (∀ b, preserves_wf (k b)) → preserves_wf (c ≫= k).
Proof.
  intros Hc Hk s Hwf. rewrite bind_run. specialize (Hc s Hwf).
  destruct (c s) as [[x | b] s1]; [done | by apply Hk].
Qed.

Lemma preserves_wf_pure {B} (r : result B) : preserves_wf (lift r).
Proof. by intros s Hwf. Qed.

Lemma preserves_wf_to_id e : preserves_wf (to_id e).
Proof. intros s. apply to_id_wf. Qed.

Lemma preserves_wf_append (c : list Z) : preserves_wf (append_clause c).
Proof. intros s Hwf. rewrite append_clause_run. by apply wf_with_clauses. Qed.

Lemma preserves_wf_mapM {B C} (f : B → M C) (l : list B) :
  (∀ b, preserves_wf (f b)) → preserves_wf (mapM f l).
Proof.
  intros Hf. induction l as [| b l IH]; [by intros s Hwf |].
  simpl. apply preserves_wf_bind; [done |]. intros c.
  apply preserves_wf_bind; [done |]. intros cs. by intros s Hwf.
Qed.

Lemma preserves_wf_forM {B} (f : B → M unit) (l : list B) :
  (∀ b, preserves_wf (f b)) → preserves_wf (forM_ f l).
Proof.
  intros Hf. induction l as [| b l IH]; [by intros s Hwf |].
  simpl. by apply preserves_wf_bind.
Qed.

Lemma wf_mutually_excludes (es : list E) : preserves_wf (mutually_excludes es).
Proof.
  apply preserves_wf_bind; [| intros c; apply preserves_wf_append].
  apply preserves_wf_mapM. intros e.
  apply preserves_wf_bind; [apply preserves_wf_to_id |]. by intros i s Hwf.
Qed.

Lemma wf_includes e : preserves_wf (includes e).
Proof.
  apply preserves_wf_bind; [apply preserves_wf_to_id |].
  intros i. apply preserves_wf_append.
Qed.

Lemma wf_excludes e : preserves_wf (excludes e).
Proof.
  apply preserves_wf_bind; [apply preserves_wf_to_id |].
  intros i. apply preserves_wf_append.
Qed.

Lemma wf_includes_all (es : list E) : preserves_wf (includes_all es).
Proof. apply preserves_wf_forM, wf_includes. Qed.

Lemma wf_includes_any (es : list E) n : preserves_wf (includes_any es n).
Proof.
  apply preserves_wf_bind; [apply preserves_wf_mapM, preserves_wf_to_id |].
  intros ids. apply preserves_wf_bind; [apply preserves_wf_pure |].
  intros combs. apply preserves_wf_forM, preserves_wf_append.
Qed.

Lemma wf_has_codependencies (es : list E) :
  preserves_wf (has_codependencies es).
Proof.
  apply preserves_wf_bind; [apply preserves_wf_mapM, preserves_wf_to_id |].
  intros ids. apply preserves_wf_bind; [apply preserves_wf_pure |].
  intros combs. apply preserves_wf_forM. intros [| j [| k [| ? ?]]];
    try (by intros s Hwf).
  apply preserves_wf_bind; [apply preserves_wf_append |].
  intros _. apply preserves_wf_append.
Qed.

Lemma wf_has_dependencies e (on : option (list E)) (n : option Z) :
  preserves_wf (has_dependencies e on n).
Proof.
  apply preserves_wf_bind; [apply preserves_wf_to_id |]. intros eid.
  apply preserves_wf_bind.
  { destruct on; [apply preserves_wf_mapM, preserves_wf_to_id |].
    by intros s Hwf. }
  intros ids. apply preserves_wf_bind; [apply preserves_wf_pure |].
  intros combs. apply preserves_wf_forM. intros c. apply preserves_wf_append.
Qed.

End builder_proofs.

(** * The claims *)

Section registry_claims.
Context {E : Type} `{Countable E}.

Implicit Types (s : AccessibleBSP (E := E)) (e : E) (i : Z).

(** C7.  Three elements passed to [to_id] for the first time, on a new
    problem, get the identifiers 1, 2, 3 in that order, and passing the
    first again gives 1.  On any well-formed problem [to_id] is idempotent
    (the identifier it gave is given again, also after other elements were
    registered), [from_id (to_id e)] is [e] for every registered element,
    and [from_id] on an identifier that no element has raises the lookup
    error. *)
Theorem to_id_from_id_registry s (x y z : E) :
  wf s → x ≠ y → x ≠ z → y ≠ z →
  eval (mapM to_id [x; y; z; x]) init = inr [1; 2; 3; 1]
  ∧ (∀ e, ∃ i,
       eval (to_id e) s = inr i
       ∧ (∀ es, eval (to_id e) (exec (mapM to_id es) (exec (to_id e) s))
                = inr i)
       ∧ from_id (exec (to_id e) s) i = inr e)
  ∧ (∀ e i, e2id s !! e = Some i →
       eval (to_id e) s = inr i ∧ from_id s i = inr e)
  ∧ (∀ i, (∀ e, e2id s !! e ≠ Some i) → from_id s i = inl KeyError).
Proof.
  intros Hwf Hxy Hxz Hyz. split_and!.
  - unfold eval.
    rewrite mapM_cons_run, (to_id_fresh init x) by apply lookup_empty.
    rewrite mapM_cons_run, to_id_fresh
      by (simpl; rewrite lookup_insert_ne by done; apply lookup_empty).
    rewrite mapM_cons_run, to_id_fresh
      by (simpl; rewrite !lookup_insert_ne by done; apply lookup_empty).
    rewrite mapM_cons_run, (to_id_known _ x 1); [done |].
    simpl. rewrite !lookup_insert_ne by done. apply lookup_insert_eq.
  - intros e. destruct (to_id_total s e) as (i & s1 & Hto & Hi & _ & _).
    exists i. unfold eval, exec. rewrite Hto. simpl. split_and!; [done | |].
    + intros es.
      destruct (mapM_to_id_total s1 es) as (ids & s2 & Hm & _ & _ & Hk & _).
      rewrite Hm. simpl. by rewrite (to_id_known s2 e i (Hk _ _ Hi)).
    + pose proof (to_id_wf s e Hwf) as Hw1. rewrite Hto in Hw1.
      apply from_id_Some. by apply (wf_inverse _ Hw1).
  - intros e i Hi. unfold eval. rewrite (to_id_known s e i Hi).
    split; [done |]. apply from_id_Some. by apply (wf_inverse _ Hwf).
  - intros i Hnone. apply from_id_None.
    destruct (id2e s !! i) as [e |] eqn:Hl; [| done].
    apply (wf_inverse _ Hwf) in Hl. by destruct (Hnone e).
Qed.

End registry_claims.

Lemma to_id_from_id_registry_witness :
  wf (init (E := string))
  ∧ eval (mapM to_id ["x"; "y"; "z"; "x"]%string) init = inr [1; 2; 3; 1]
  ∧ from_id (init (E := string)) 1 = inl KeyError.
Proof.
  split; [exact wf_init |].
  destruct (to_id_from_id_registry (init (E := string)) "x" "y" "z"
              wf_init ltac:(done) ltac:(done) ltac:(done))
    as (H123 & _ & _ & Hmiss).
  split; [exact H123 |]. apply Hmiss. intros e. simpl. by rewrite lookup_empty.
Defined.

Section builder_claims.
Context {E : Type} `{Countable E}.

Implicit Types (s : AccessibleBSP (E := E)) (e : E) (i : Z).
Implicit Types (v : assignment) (ids : list Z).

(** C3.  [mutually_excludes] appends exactly one clause, the negation of
    the variable of every element, and nothing else; an assignment satisfies
    the new problem exactly when it satisfied the old one and not all the
    listed variables are true.  So only the configuration with all of them
    true is forbidden (this holds for every collection, in particular every
    non-empty one). *)
Theorem mutually_excludes_forbids_all_true s (elements : list E) :
  wf s →
  let s' := exec (mutually_excludes elements) s in
  ∃ ids,
    Forall2 (λ e i, e2id s' !! e = Some i) elements ids
    ∧ eval (mutually_excludes elements) s = inr tt
    ∧ clauses s' = clauses s ++ [map Z.opp ids]
    ∧ ∀ v, cnf_true v (clauses s') = true
           ↔ cnf_true v (clauses s) = true
             ∧ ¬ Forall (λ i, v i = true) ids.
Proof.
  intros Hwf s'.
  destruct (mutually_excludes_run s elements)
    as (ids & s1 & _ & Hrun & Hall & Hc & Hwf1).
  subst s'. unfold exec, eval. rewrite Hrun. simpl.
  exists ids. split_and!; [done | done | by rewrite Hc |].
  intros v. rewrite cnf_true_app, andb_true_iff, Hc. simpl.
  rewrite andb_true_r.
  rewrite (clause_true_negated v ids); [done |].
  eapply registered_pos; [exact (Hwf1 Hwf) | exact Hall].
Qed.

(** C4.  For [m] elements and [1 ≤ n ≤ m], [includes_any elements n]
    appends the combinations of length [m - n + 1] of the elements'
    variables, each a clause of positive literals: these are exactly the
    subsequences of that length, one per subset when the elements are
    distinct.  An assignment satisfies all of them exactly when at least [n]
    of the variables are true. *)
Theorem includes_any_at_least s (elements : list E) (n : Z) :
  wf s → 1 ≤ n ≤ Z.of_nat (length elements) →
  let s' := exec (includes_any elements n) s in
  let r := Z.to_nat (Z.of_nat (length elements) - n + 1) in
  ∃ ids,
    Forall2 (λ e i, e2id s' !! e = Some i) elements ids
    ∧ eval (includes_any elements n) s = inr tt
    ∧ clauses s' = clauses s ++ combinations ids r
    ∧ (∀ c, c ∈ combinations ids r ↔ c `sublist_of` ids ∧ length c = r)
    ∧ (NoDup elements → NoDup ids ∧ NoDup (combinations ids r))
    ∧ Forall (Forall (λ l, 0 < l)) (combinations ids r)
    ∧ ∀ v, Forall (λ c, clause_true v c = true) (combinations ids r)
           ↔ (Z.to_nat n ≤ count_true v ids)%nat.
Proof.
  intros Hwf Hn s' r.
  destruct (includes_any_run s elements n)
    as (ids & s1 & _ & Hrun & Hall & Hc & Hwf1); [lia |].
  assert (Hpos : Forall (λ i, 0 < i) ids).
  { eapply registered_pos; [exact (Hwf1 Hwf) | exact Hall]. }
  assert (Hr : Z.to_nat (Z.of_nat (length elements) + 1 - n) = r)
    by (subst r; lia).
  rewrite Hr in Hrun. subst s'. unfold exec, eval. rewrite Hrun. simpl.
  exists ids. split_and!; [done | done | by rewrite Hc | | | |].
  - intros c. apply elem_of_combinations.
  - intros Hnd.
    assert (NoDup ids)
      by exact (registered_NoDup s1 elements ids (Hwf1 Hwf) Hall Hnd).
    split; [done | by apply NoDup_combinations].
  - apply Forall_forall. intros c [Hsub _]%elem_of_combinations.
    apply Forall_forall. intros l Hl.
    eapply (proj1 (Forall_forall _ _) Hpos), (sublist_subseteq _ _ Hsub), Hl.
  - intros v. rewrite (combinations_true v ids r Hpos).
    pose proof (Forall2_length _ _ _ Hall) as Hlen.
    pose proof (count_true_le v ids). subst r. lia.
Qed.

(** C5.  For [on] of size [m] and [1 ≤ n ≤ m] ([n] being [m] when it is
    not given), [has_dependencies e on n] appends, for every combination of
    length [m - n + 1] of the variables of [on], the clause made of the
    negation of [e]'s variable followed by that combination.  An assignment
    satisfies all of them exactly when [e] true implies at least [n] of [on]
    true: with [e] false they hold whatever [on] is. *)
Theorem has_dependencies_requires s e (on : list E) (n : option Z) :
  wf s →
  let m := Z.of_nat (length on) in
  let n' := match n with None => m | Some k => k end in
  1 ≤ n' ≤ m →
  let s' := exec (has_dependencies e (Some on) n) s in
  let r := Z.to_nat (m - n' + 1) in
  ∃ eid ids,
    e2id s' !! e = Some eid
    ∧ Forall2 (λ e i, e2id s' !! e = Some i) on ids
    ∧ eval (has_dependencies e (Some on) n) s = inr tt
    ∧ clauses s' = clauses s ++ map (cons (- eid)) (combinations ids r)
    ∧ (∀ c, c ∈ combinations ids r ↔ c `sublist_of` ids ∧ length c = r)
    ∧ ∀ v, Forall (λ c, clause_true v c = true)
             (map (cons (- eid)) (combinations ids r))
           ↔ (v eid = true → (Z.to_nat n' ≤ count_true v ids)%nat).
Proof.
  intros Hwf m n' Hn s' r.
  destruct (has_dependencies_run s e on n)
    as (eid & ids & s1 & He & Hrun & Hall & Hc & Hwf1); [fold m n'; lia |].
  fold m n' in Hrun.
  assert (Hr : Z.to_nat (m + 1 - n') = r) by (subst r; lia).
  rewrite Hr in Hrun. subst s'. unfold exec, eval. rewrite Hrun. simpl.
  exists eid, ids. split_and!; [done | done | done | by rewrite Hc | |].
  - intros c. apply elem_of_combinations.
  - intros v. rewrite (guarded_combinations_true v eid ids r).
    + pose proof (Forall2_length _ _ _ Hall) as Hlen.
      pose proof (count_true_le v ids). subst r m.
      split; intros Himp Hv; specialize (Himp Hv); lia.
    + eapply wf_id_pos; [exact (Hwf1 Hwf) | exact He].
    + eapply registered_pos; [exact (Hwf1 Hwf) | exact Hall].
Qed.

End builder_claims.

(** The three elements of the examples. *)
Definition abc : list string := ["a"; "b"; "c"]%string.

Lemma mutually_excludes_forbids_all_true_witness :
  wf (init (E := string))
  ∧ let s' := exec (mutually_excludes abc) init in
    ∃ ids,
      Forall2 (λ e i, e2id s' !! e = Some i) abc ids
      ∧ eval (mutually_excludes abc) init = inr tt
      ∧ clauses s' = clauses (init (E := string)) ++ [map Z.opp ids]
      ∧ ∀ v, cnf_true v (clauses s') = true
             ↔ cnf_true v (clauses (init (E := string))) = true
               ∧ ¬ Forall (λ i, v i = true) ids.
Proof.
  split; [exact wf_init |].
  exact (mutually_excludes_forbids_all_true init abc wf_init).
Defined.

(** After [mutually_excludes({a,b,c})] on a new problem the only clause is
    [-1 -2 -3]: [a] and [b] true with [c] false is allowed, all three true is
    not. *)
Example mutually_excludes_abc :
  let s' := exec (mutually_excludes abc) init in
  clauses s' = [[-1; -2; -3]]
  ∧ cnf_true (model_assignment [1; 2; -3]) (clauses s') = true
  ∧ cnf_true (model_assignment [1; 2; 3]) (clauses s') = false.
Proof. by vm_compute. Qed.

Lemma includes_any_at_least_witness :
  wf (init (E := string))
  ∧ 1 ≤ 2 ≤ Z.of_nat (length abc)
  ∧ let s' := exec (includes_any abc 2) init in
    let r := Z.to_nat (Z.of_nat (length abc) - 2 + 1) in
    ∃ ids,
      Forall2 (λ e i, e2id s' !! e = Some i) abc ids
      ∧ eval (includes_any abc 2) init = inr tt
      ∧ clauses s' = clauses (init (E := string)) ++ combinations ids r
      ∧ (∀ c, c ∈ combinations ids r ↔ c `sublist_of` ids ∧ length c = r)
      ∧ (NoDup abc → NoDup ids ∧ NoDup (combinations ids r))
      ∧ Forall (Forall (λ l, 0 < l)) (combinations ids r)
      ∧ ∀ v, Forall (λ c, clause_true v c = true) (combinations ids r)
             ↔ (Z.to_nat 2 ≤ count_true v ids)%nat.
Proof.
  split; [exact wf_init |].
  assert (Hn : 1 ≤ 2 ≤ Z.of_nat (length abc)) by (simpl; lia).
  split; [exact Hn |].
  exact (includes_any_at_least init abc 2 wf_init Hn).
Defined.

(** After [includes_any({a,b,c}, n=2)] on a new problem the clauses are the
    three pairs. *)
Example includes_any_abc :
  clauses (exec (includes_any abc 2) init) = [[1; 2]; [1; 3]; [2; 3]].
Proof. by vm_compute. Qed.

Lemma has_dependencies_requires_witness :
  wf (init (E := string))
  ∧ 1 ≤ 1 ≤ Z.of_nat (length ["b"; "c"]%string)
  ∧ let on := ["b"; "c"]%string in
    let s' := exec (has_dependencies "a"%string (Some on) (Some 1)) init in
    let r := Z.to_nat (Z.of_nat (length on) - 1 + 1) in
    ∃ eid ids,
      e2id s' !! "a"%string = Some eid
      ∧ Forall2 (λ e i, e2id s' !! e = Some i) on ids
      ∧ eval (has_dependencies "a"%string (Some on) (Some 1)) init = inr tt
      ∧ clauses s' = clauses (init (E := string)) ++ map (cons (- eid)) (combinations ids r)
      ∧ (∀ c, c ∈ combinations ids r ↔ c `sublist_of` ids ∧ length c = r)
      ∧ ∀ v, Forall (λ c, clause_true v c = true)
               (map (cons (- eid)) (combinations ids r))
             ↔ (v eid = true → (Z.to_nat 1 ≤ count_true v ids)%nat).
Proof.
  split; [exact wf_init |].
  assert (Hn : 1 ≤ 1 ≤ Z.of_nat (length ["b"; "c"]%string)) by (simpl; lia).
  split; [exact Hn |].
  exact (has_dependencies_requires init "a"%string ["b"; "c"]%string (Some 1)
           wf_init Hn).
Defined.

(** [has_dependencies(a, on={b,c}, n=1)] and, with [n] left out, all of
    [on]. *)
Example has_dependencies_abc :
  clauses (exec (has_dependencies "a"%string (Some ["b"; "c"]%string) (Some 1))
             init) = [[-1; 2; 3]]
  ∧ clauses (exec (has_dependencies "a"%string (Some ["b"; "c"]%string) None)
               init) = [[-1; 2]; [-1; 3]].
Proof. by vm_compute. Qed.

(** ** SolutionSession *)

Section session_proofs.
Context {E : Type} `{Countable E}.
Context `{Engine}.

Implicit Types (s : AccessibleBSP (E := E)) (e : E) (i : Z) (m : list Z).

(** [remap_solution] can only fail on a missing identifier. *)
Lemma remap_solution_error s m x : remap_solution s m = inl x → x = KeyError.
Proof.
  induction m as [| i m IH]; simpl; [done |].
  destruct (0 <? i); [| done].
  unfold from_id. destruct (id2e s !! i); simpl; [| congruence].
  destruct (remap_solution s m); simpl; [| done].
  intros [= <-]. by apply IH.
Qed.

(** When it returns, every positive literal was registered and the set
    holds exactly their elements. *)
Lemma remap_solution_inr s m sol :
  remap_solution s m = inr sol →
  (∀ i, i ∈ m → 0 < i → is_Some (id2e s !! i))
  ∧ (∀ e, e ∈ sol ↔ ∃ i, i ∈ m ∧ 0 < i ∧ id2e s !! i = Some e).
Proof.
  revert sol. induction m as [| i m IH]; intros sol; simpl.
  - intros [= <-]. split.
    + by intros i ?%elem_of_nil.
    + intros e. split; [by intros ?%elem_of_empty |].
      by intros (i & ?%elem_of_nil & _).
  - destruct (Z.ltb_spec 0 i) as [Hi | Hi].
    + unfold from_id. destruct (id2e s !! i) as [e0 |] eqn:Hl; [| done].
      simpl. destruct (remap_solution s m) as [| acc]; [done |].
      simpl. intros [= <-]. destruct (IH acc eq_refl) as [IH1 IH2]. split.
      * intros j [-> | Hj]%elem_of_cons Hpos; [by rewrite Hl | by apply IH1].
      * intros e. rewrite elem_of_union, elem_of_singleton, IH2. split.
        -- intros [-> | (j & Hj & Hpos & Hje)].
           ++ exists i. split_and!; [left | done | done].
           ++ exists j. split_and!; [by right | done | done].
        -- intros (j & [-> | Hj]%elem_of_cons & Hpos & Hje).
           ++ left. congruence.
           ++ right. by exists j.
    + intros Hr. destruct (IH sol Hr) as [IH1 IH2]. split.
      * intros j [-> | Hj]%elem_of_cons Hpos; [lia | by apply IH1].
      * intros e. rewrite IH2. split.
        -- intros (j & Hj & Hpos & Hje). exists j. split_and!; [by right | done | done].
        -- intros (j & [-> | Hj]%elem_of_cons & Hpos & Hje); [lia |].
           by exists j.
Qed.

(** It returns as soon as every positive literal is registered. *)
Lemma remap_solution_total s m :
  (∀ i, i ∈ m → 0 < i → is_Some (id2e s !! i)) →
  ∃ sol, remap_solution s m = inr sol.
Proof.
  induction m as [| i m IH]; intros Hreg; simpl; [by eexists |].
  destruct IH as [acc Hacc].
  { intros j Hj. apply Hreg. by right. }
  rewrite Hacc. destruct (Z.ltb_spec 0 i) as [Hi | Hi]; [| by eexists].
  destruct (Hreg i) as [e0 He0]; [left | done |].
  unfold from_id. rewrite He0. simpl. by eexists.
Qed.

Lemma solutions_empty s :
  itersolve (clauses s) = [] →
  solutions s = match solution s with inl x => [inl x] | inr _ => [] end.
Proof. intros Hnil. unfold solutions. by rewrite Hnil. Qed.

End session_proofs.

Section session_claims.
Context {E : Type} `{Countable E}.
Context `{Engine}.

Implicit Types (s : AccessibleBSP (E := E)) (e : E) (i : Z) (m : list Z).

(** C6.  [solution] raises [UnsatisfiableConstraints] exactly when the
    engine answers UNSAT and [SolutionNotFound] exactly when it answers
    UNKNOWN; on a model it returns the remapped set, that is the elements
    whose variables the model makes true.  When the enumeration yields
    nothing, [solutions] ends with the very error [solution] raises. *)
Theorem solution_errors_distinguished s :
  (solution s = inl UnsatisfiableConstraints ↔ solve (clauses s) = UNSAT)
  ∧ (solution s = inl SolutionNotFound ↔ solve (clauses s) = UNKNOWN)
  ∧ (∀ m, solve (clauses s) = Model m → solution s = remap_solution s m)
  ∧ (∀ m sol, solve (clauses s) = Model m → solution s = inr sol →
       ∀ e, e ∈ sol ↔ ∃ i, i ∈ m ∧ 0 < i ∧ id2e s !! i = Some e)
  ∧ (∀ m, solve (clauses s) = Model m →
       (∀ i, i ∈ m → 0 < i → is_Some (id2e s !! i)) →
       ∃ sol, solution s = inr sol)
  ∧ (itersolve (clauses s) = [] →
       (solve (clauses s) = UNSAT →
          solutions s = [inl UnsatisfiableConstraints])
       ∧ (solve (clauses s) = UNKNOWN →
            solutions s = [inl SolutionNotFound])
       ∧ (∀ x, solution s = inl x → solutions s = [inl x])).
Proof.
  unfold solution. split_and!.
  - destruct (solve (clauses s)) as [m | |] eqn:Hs; split; try done.
    intros Hr. by apply remap_solution_error in Hr.
  - destruct (solve (clauses s)) as [m | |] eqn:Hs; split; try done.
    intros Hr. by apply remap_solution_error in Hr.
  - by intros m ->.
  - intros m sol -> Hr. by apply (remap_solution_inr s m sol).
  - intros m -> Hreg. by apply remap_solution_total.
  - intros Hnil. rewrite (solutions_empty s Hnil). unfold solution.
    split_and!.
    + by intros ->.
    + by intros ->.
    + intros x ->. done.
Qed.

(** C10.  [mutually_excludes] on an empty collection, and [includes_any] on
    an empty collection with [n = 1], append the empty clause, which no
    assignment satisfies.  An engine that is sound on the new clauses and
    does not give up on them then answers UNSAT, and [solution] raises
    [UnsatisfiableConstraints]. *)
Theorem empty_collection_unsatisfiable s :
  let cs := clauses s ++ [[]] in
  (∀ m, solve cs = Model m → cnf_true (model_assignment m) cs = true) →
  solve cs ≠ UNKNOWN →
  clauses (exec (mutually_excludes []) s) = cs
  ∧ clauses (exec (includes_any [] 1) s) = cs
  ∧ (∀ v, cnf_true v cs = false)
  ∧ solution (exec (mutually_excludes []) s) = inl UnsatisfiableConstraints
  ∧ solution (exec (includes_any [] 1) s) = inl UnsatisfiableConstraints.
Proof.
  intros cs Hsound Hdecides.
  assert (Hfalse : ∀ v, cnf_true v cs = false).
  { intros v. subst cs. rewrite cnf_true_app. simpl. apply andb_false_r. }
  assert (Hunsat : solve cs = UNSAT).
  { destruct (solve cs) as [m | |] eqn:Hs; [| done | done].
    specialize (Hsound m eq_refl). by rewrite Hfalse in Hsound. }
  assert (H1 : clauses (exec (mutually_excludes []) s) = cs) by done.
  assert (H2 : clauses (exec (includes_any [] 1) s) = cs) by done.
  split_and!; [done | done | done | |].
  - unfold solution. by rewrite H1, Hunsat.
  - unfold solution. by rewrite H2, Hunsat.
Qed.

(** C2.  The code does not do what the claim says: as soon as the
    enumeration has a second solution after a first non-empty one, the
    comparison reads the unbound name [lastlen] and [minimal_solution]
    raises [NameError] instead of returning a smallest solution. *)
Theorem minimal_solution_unbound_name s m1 m2 rest sol1 sol2 :
  itersolve (clauses s) = m1 :: m2 :: rest →
  remap_solution s m1 = inr sol1 →
  remap_solution s m2 = inr sol2 →
  sol1 ≠ ∅ →
  minimal_solution s = inl NameError.
Proof.
  intros Hit H1 H2 Hne. unfold minimal_solution, solutions.
  rewrite Hit. simpl. rewrite H1, H2. simpl.
  by destruct (decide (sol1 = ∅)).
Qed.

(** X2.  What [minimal_solution] does return: the first solution when it
    is the only one or when it is empty. *)
Lemma minimal_solution_first s m1 rest sol1 :
  itersolve (clauses s) = m1 :: rest →
  remap_solution s m1 = inr sol1 →
  rest = [] ∨ sol1 = ∅ →
  minimal_solution s = inr (Some sol1).
Proof.
  intros Hit H1 Hcase. unfold minimal_solution, solutions.
  rewrite Hit. simpl. rewrite H1. simpl.
  destruct (decide (sol1 = ∅)) as [| Hne]; [done |].
  destruct Hcase as [-> | ?]; done.
Qed.

End session_claims.

Section reference_examples.
Import Reference.

Lemma empty_collection_unsatisfiable_witness :
  let s := init (E := string) in
  let cs := clauses s ++ [[]] in
  (∀ m, solve cs = Model m → cnf_true (model_assignment m) cs = true)
  ∧ solve cs ≠ UNKNOWN
  ∧ clauses (exec (mutually_excludes []) s) = cs
  ∧ clauses (exec (includes_any [] 1) s) = cs
  ∧ (∀ v, cnf_true v cs = false)
  ∧ solution (exec (mutually_excludes []) s) = inl UnsatisfiableConstraints
  ∧ solution (exec (includes_any [] 1) s) = inl UnsatisfiableConstraints.
Proof.
  intros s cs.
  assert (Hsound : ∀ m, solve cs = Model m
                        → cnf_true (model_assignment m) cs = true).
  { intros m Hm. vm_compute in Hm. discriminate Hm. }
  assert (Hdecides : solve cs ≠ UNKNOWN).
  { vm_compute. discriminate. }
  split; [exact Hsound |]. split; [exact Hdecides |].
  exact (empty_collection_unsatisfiable s Hsound Hdecides).
Defined.

(** The problem [includes_any({a, b})]: three models, none of them empty. *)
Definition a_or_b : AccessibleBSP (E := string) :=
  exec (includes_any ["a"; "b"]%string 1) init.

Lemma minimal_solution_unbound_name_witness :
  itersolve (clauses a_or_b) = [-1; 2] :: [1; -2] :: [[1; 2]]
  ∧ remap_solution a_or_b [-1; 2] = inr {["b"%string]}
  ∧ remap_solution a_or_b [1; -2] = inr {["a"%string]}
  ∧ ({["b"%string]} : gset string) ≠ ∅
  ∧ minimal_solution a_or_b = inl NameError.
Proof.
  assert (Hit : itersolve (clauses a_or_b) = [-1; 2] :: [1; -2] :: [[1; 2]])
    by (vm_compute; reflexivity).
  assert (H1 : remap_solution a_or_b [-1; 2] = inr {["b"%string]})
    by (vm_compute; reflexivity).
  assert (H2 : remap_solution a_or_b [1; -2] = inr {["a"%string]})
    by (vm_compute; reflexivity).
  assert (Hne : ({["b"%string]} : gset string) ≠ ∅)
    by (vm_compute; discriminate).
  split_and!; [exact Hit | exact H1 | exact H2 | exact Hne |].
  exact (minimal_solution_unbound_name a_or_b _ _ _ _ _ Hit H1 H2 Hne).
Defined.

(** The same by evaluation, next to a problem with a single model, where
    the loop never reaches the comparison. *)
Example minimal_solution_a_or_b :
  minimal_solution a_or_b = inl NameError
  ∧ minimal_solution (exec (includes "a"%string) init)
    = inr (Some {["a"%string]}).
Proof. split; vm_compute; reflexivity. Qed.

(** [includes("x")] together with [excludes("x")]. *)
Example includes_excludes_unsatisfiable :
  solution (exec (excludes "x"%string) (exec (includes "x"%string) init))
  = inl UnsatisfiableConstraints.
Proof. vm_compute. reflexivity. Qed.

End reference_examples.

(** ** Textual export *)

Section dimacs_proofs.
Context {E : Type} `{Countable E}.

Implicit Types (s : AccessibleBSP (E := E)) (x t sep : string).

Lemma string_app_assoc x y z : (x +:+ y) +:+ z = x +:+ y +:+ z.
Proof.
  induction x as [| a x IH]; [done |].
  change (String a ((x +:+ y) +:+ z) = String a (x +:+ y +:+ z)).
  by f_equal.
Qed.

Lemma string_app_nil_r x : x +:+ EmptyString = x.
Proof.
  induction x as [| a x IH]; [done |].
  change (String a (x +:+ EmptyString) = String a x). by f_equal.
Qed.

(** Joining with a separator and closing with the separator and [t] puts
    the separator after every entry. *)
Lemma join_terminated sep t x (l : list string) :
  String.concat sep (x :: l) +:+ sep +:+ t
  = foldr (λ ln acc, ln +:+ sep +:+ acc) t (x :: l).
Proof.
  revert x. induction l as [| y l IH]; intros x; [done |].
  change (String.concat sep (x :: y :: l))
    with (x +:+ sep +:+ String.concat sep (y :: l)).
  rewrite !string_app_assoc, IH. done.
Qed.

(** C9.  The export is made of lines, each closed by a newline: first one
    comment line [c <id> = <repr> <hash>] per registered element, then the
    problem line [p cnf A B] with [A] the number of clauses and [B] the
    number of variables, in that order, then one line per clause with its
    literals, each followed by a space, and a closing [0]. *)
Theorem dimacs_cnf_layout (repr : E → string) (hash : E → Z) s :
  wf s →
  let comment := λ kv : Z * E,
    "c " +:+ str_int kv.1 +:+ " = " +:+ repr kv.2
         +:+ " <" +:+ str_int (hash kv.2) +:+ ">" in
  let header :=
    "p cnf " +:+ str_int (Z.of_nat (length (clauses s)))
             +:+ " " +:+ str_int (variables s) in
  let line := λ c : list Z,
    match c with
    | [] => " 0"
    | _ => foldr (λ l acc, str_int l +:+ " " +:+ acc) "0" c
    end in
  ∃ items : list (Z * E),
    NoDup items
    ∧ (∀ k e, (k, e) ∈ items ↔ e2id s !! e = Some k)
    ∧ dimacs_cnf repr hash s
      = foldr (λ ln acc, ln +:+ newline +:+ acc) EmptyString
          (map comment items ++ [header] ++ map line (clauses s)).
Proof.
  intros Hwf comment header line. exists (iteritems s). split_and!.
  - apply NoDup_map_to_list.
  - intros k e. unfold iteritems. rewrite elem_of_map_to_list.
    symmetry. apply (wf_inverse _ Hwf).
  - unfold dimacs_cnf, dimacs_lines. simpl app at 1.
    assert (Hlines : map (clause_line) (clauses s) = map line (clauses s)).
    { apply map_ext. intros [| l c]; [done |].
      unfold clause_line, line.
      change (map str_int (l :: c)) with (str_int l :: map str_int c).
      rewrite (join_terminated " " "0").
      change (str_int l :: map str_int c) with (map str_int (l :: c)).
      generalize (l :: c). clear. intros c.
      induction c as [| l c IH]; [done |]. simpl. by rewrite IH. }
    rewrite Hlines, <- app_assoc.
    change (comment_line repr hash) with comment.
    change (problem_line s) with header.
    destruct (map comment (iteritems s) ++ [header] ++ map line (clauses s))
      as [| x l] eqn:Hl.
    { by destruct (map comment (iteritems s)). }
    rewrite <- (string_app_nil_r newline) at 2.
    by rewrite join_terminated.
Qed.

End dimacs_proofs.

Lemma dimacs_cnf_layout_witness :
  let s := exec (includes "a"%string) init in
  let repr := λ x : string, "'" +:+ x +:+ "'" in
  let hash := λ _ : string, 7 in
  wf s
  ∧ ∃ items : list (Z * string),
      NoDup items
      ∧ (∀ k e, (k, e) ∈ items ↔ e2id s !! e = Some k)
      ∧ dimacs_cnf repr hash s
        = foldr (λ ln acc, ln +:+ newline +:+ acc) EmptyString
            (map (λ kv : Z * string,
                    "c " +:+ str_int kv.1 +:+ " = " +:+ repr kv.2
                         +:+ " <" +:+ str_int (hash kv.2) +:+ ">") items
             ++ ["p cnf " +:+ str_int (Z.of_nat (length (clauses s)))
                          +:+ " " +:+ str_int (variables s)]
             ++ map (λ c : list Z,
                       match c with
                       | [] => " 0"
                       | _ => foldr (λ l acc, str_int l +:+ " " +:+ acc) "0" c
                       end) (clauses s)).
Proof.
  intros s repr hash.
  assert (Hwf : wf s).
  { unfold s, exec, includes. rewrite bind_run.
    pose proof (to_id_wf init "a"%string wf_init) as Hw.
    destruct (to_id "a"%string init) as [[x | i] s1]; [exact Hw |].
    simpl. by apply wf_with_clauses. }
  split; [exact Hwf |].
  exact (dimacs_cnf_layout repr hash s Hwf).
Defined.

(** The export of a problem with one element and one clause. *)
Example dimacs_cnf_includes_a :
  dimacs_cnf (λ x : string, "'" +:+ x +:+ "'") (λ _, 7)
    (exec (includes "a"%string) init)
  = "c 1 = 'a' <7>" +:+ newline +:+ "p cnf 1 1" +:+ newline
      +:+ "1 0" +:+ newline.
Proof. by vm_compute. Qed.

(** ** SolutionPartitioner *)

Section disjoint_proofs.
Context `{Countable A}.
Implicit Types (l : list (gset A)) (x y : gset A).

Lemma pairwise_disjoint_nil : pairwise_disjoint ([] : list (gset A)).
Proof. intros i j x y _ Hi. by rewrite lookup_nil in Hi. Qed.

Lemma pairwise_disjoint_singleton x : pairwise_disjoint [x].
Proof.
  intros i j a b Hij Hi Hj.
  apply list_lookup_singleton_Some in Hi as [-> _].
  apply list_lookup_singleton_Some in Hj as [-> _]. done.
Qed.

(** Appending a set disjoint from all the others. *)
Lemma pairwise_disjoint_snoc l x :
  pairwise_disjoint l → Forall (λ y, y ## x) l → pairwise_disjoint (l ++ [x]).
Proof.
  intros Hl Hx i j a b Hij Hi Hj.
  apply lookup_snoc_Some in Hi as [[Hi1 Hi2] | [-> <-]];
    apply lookup_snoc_Some in Hj as [[Hj1 Hj2] | [-> <-]].
  - by apply (Hl i j).
  - eapply (proj1 (Forall_forall _ _) Hx), list_elem_of_lookup_2, Hi2.
  - symmetry.
    eapply (proj1 (Forall_forall _ _) Hx), list_elem_of_lookup_2, Hj2.
  - done.
Qed.

(** A set disjoint from the union is disjoint from every member. *)
Lemma disjoint_union_list l x :
  x ∩ ⋃ l = ∅ → Forall (λ y, y ## x) l.
Proof.
  intros Hx. apply Forall_forall. intros y Hy.
  apply elem_of_disjoint. intros a Hay Hax.
  assert (a ∈ x ∩ ⋃ l) as Ha.
  { apply elem_of_intersection. split; [done |].
    apply elem_of_union_list. by exists y. }
  rewrite Hx in Ha. by apply elem_of_empty in Ha.
Qed.

Lemma union_list_snoc l x : ⋃ (l ++ [x]) = ⋃ l ∪ x.
Proof.
  rewrite union_list_app_L. simpl. by rewrite (right_id_L ∅ (∪)).
Qed.

End disjoint_proofs.

Section pop_proofs.
Context {A : Type}.
Implicit Types (l r : list A) (x : A).


Lemma pop_None l : pop l = None → l = [].
Proof.
  destruct l as [| y l]; simpl; [done |]. by destruct (pop l) as [[? ?] |].
Qed.

Lemma pop_Some l r x : pop l = Some (r, x) → l = r ++ [x].
Proof.
  revert r. induction l as [| y l IH]; intros r; simpl; [done |].
  destruct (pop l) as [[r' x'] |] eqn:Hpop.
  - intros [= <- <-]. simpl. f_equal. by apply IH.
  - apply pop_None in Hpop as ->. by intros [= <- <-].
Qed.

End pop_proofs.

Section sort_proofs.
Implicit Types (l : list (gset Z)) (x : gset Z).

Lemma sort_insert_perm x l : sort_insert x l ≡ₚ x :: l.
Proof.
  induction l as [| y l IH]; simpl; [done |].
  case_decide; [done |]. rewrite IH. apply Permutation_swap.
Qed.

(** The sort only reorders the candidates. *)
Lemma sort_by_neg_len_perm l : sort_by_neg_len l ≡ₚ l.
Proof.
  induction l as [| x l IH]; simpl; [done |].
  by rewrite sort_insert_perm, IH.
Qed.

Lemma sort_by_neg_len_union l : ⋃ sort_by_neg_len l = ⋃ l.
Proof.
  apply set_eq. intros a. rewrite !elem_of_union_list.
  split; intros (X & HX & Ha); exists X; split; try done.
  - by rewrite <- (sort_by_neg_len_perm l).
  - by rewrite (sort_by_neg_len_perm l).
Qed.

End sort_proofs.

Section search_proofs.
Variable sols : list (gset Z).
Variable target : Z.

Implicit Types (v vtx : vertex) (st : dfs_state) (hp : list (list vertex)).

(** What every vertex of the search is: candidates, no two the same, no two
    with a common member. *)
Definition good (v : vertex) : Prop :=
  Forall (λ x, x ∈ sols) v ∧ NoDup v ∧ pairwise_disjoint v.

Definition heap_good hp : Prop := Forall (Forall good) hp.

(** The invariant of the [while] loop: the vertices on the stack and in the
    edge lists are good, and [graph] holds the union of each vertex. *)
Record search_inv st : Prop := mkInv {
  inv_stack : Forall good (stack st);
  inv_heap : heap_good (heap st);
  inv_graph : ∀ v r pool, graph st !! v = Some (r, pool) → pool = ⋃ v
}.

Lemma good_singleton x : x ∈ sols → good [x].
Proof.
  intros Hx. split_and!.
  - by apply Forall_singleton.
  - apply NoDup_singleton.
  - apply pairwise_disjoint_singleton.
Qed.

Lemma good_snoc v x :
  good v → x ∈ sols → x ∉ v → x ∩ ⋃ v = ∅ → good (v ++ [x]).
Proof.
  intros (Hin & Hnd & Hdisj) Hx Hnew Hpool. split_and!.
  - apply Forall_app. split; [done | by apply Forall_singleton].
  - apply NoDup_app. split_and!; [done | | apply NoDup_singleton].
    intros y Hy ->%list_elem_of_singleton. done.
  - apply pairwise_disjoint_snoc; [done |]. by apply disjoint_union_list.
Qed.

Lemma heap_append_good hp r v :
  heap_good hp → good v → heap_good (heap_append hp r v).
Proof.
  intros Hhp Hv. unfold heap_append.
  destruct (hp !! r) as [edges |] eqn:Hr; [| done].
  apply Forall_insert; [done |].
  apply Forall_app. split; [| by apply Forall_singleton].
  eapply (proj1 (Forall_forall _ _) Hhp), list_elem_of_lookup_2, Hr.
Qed.

Lemma heap_append_length hp r v : length (heap_append hp r v) = length hp.
Proof.
  unfold heap_append. destruct (hp !! r); [| done]. apply length_insert.
Qed.

Lemma last_of_each_sols (edges : list vertex) cands :
  Forall good edges → last_of_each edges = inr cands →
  Forall (λ x, x ∈ sols) cands.
Proof.
  intros Hgood. revert cands.
  induction Hgood as [| e edges He _ IH]; intros cands; simpl.
  - by intros [= <-].
  - destruct (pop e) as [[e' x] |] eqn:Hpop; [| done].
    destruct (last_of_each edges) as [| xs]; [done |].
    simpl. intros [= <-]. constructor; [| by apply IH].
    apply pop_Some in Hpop as ->. destruct He as [Hin _].
    apply Forall_app in Hin as [_ Hx]. by inversion Hx.
Qed.

(** The scan of the candidates of one vertex: a returned path is good and
    its union has the target size; otherwise only good edges were added. *)
Lemma scan_candidates_spec vtx pool r cands hp :
  good vtx → pool = ⋃ vtx → Forall (λ x, x ∈ sols) cands → heap_good hp →
  match scan_candidates target vtx pool r cands hp with
  | inl path => good path ∧ Z.of_nat (size (⋃ path)) = target
  | inr hp' => heap_good hp' ∧ length hp' = length hp
  end.
Proof.
  intros Hvtx -> Hcands. revert hp.
  induction Hcands as [| x cands Hx _ IH]; intros hp Hhp; simpl; [done |].
  case_decide as Hskip; [by apply IH |].
  assert (Hnew : x ∉ vtx) by tauto.
  assert (Hdisj : x ∩ ⋃ vtx = ∅).
  { destruct (decide (x ∩ ⋃ vtx = ∅)); [done | tauto]. }
  assert (Hgood : good (vtx ++ [x])) by by apply good_snoc.
  case_decide as Hfull.
  - split; [done |]. rewrite union_list_snoc, size_union; [lia |].
    apply disjoint_intersection_L. by rewrite (comm_L (∩)).
  - specialize (IH (heap_append hp r (vtx ++ [x]))
                  (heap_append_good _ _ _ Hhp Hgood)).
    destruct (scan_candidates target vtx (⋃ vtx) r cands
                (heap_append hp r (vtx ++ [x]))) as [path | hp']; [done |].
    by rewrite heap_append_length in IH.
Qed.

(** One turn of the loop keeps the invariant, and a path it returns is good
    and covers a set of the target size. *)
Lemma visit_spec st stack' vtx :
  search_inv st → good vtx → Forall good stack' →
  match visit sols target vtx stack' st with
  | inl _ => True
  | inr (inl path) => good path ∧ Z.of_nat (size (⋃ path)) = target
  | inr (inr st') => search_inv st'
  end.
Proof.
  intros [Hstack Hheap Hgraph] Hvtx Hstack'. unfold visit.
  assert (Hstep : ∀ r hp cands pool,
    pool = ⋃ vtx → Forall (λ x, x ∈ sols) cands → heap_good hp →
    match
      match scan_candidates target vtx pool r cands hp with
      | inl new_vertex => inr (inl new_vertex)
      | inr hp' =>
          inr (inr {| stack := stack' ++ default [] (hp' !! r);
                      graph := <[vtx := (r, pool)]> (graph st);
                      heap := hp' |})
      end : result (vertex + dfs_state)
    with
    | inl _ => True
    | inr (inl path) => good path ∧ Z.of_nat (size (⋃ path)) = target
    | inr (inr st') => search_inv st'
    end).
  { intros r hp cands pool Hpool Hcands Hhp.
    pose proof (scan_candidates_spec vtx pool r cands hp Hvtx Hpool Hcands Hhp)
      as Hscan.
    destruct (scan_candidates target vtx pool r cands hp) as [path | hp'];
      [done |].
    destruct Hscan as [Hhp' _]. split; simpl.
    - apply Forall_app. split; [done |].
      destruct (hp' !! r) as [edges |] eqn:Hr; simpl; [| constructor].
      eapply (proj1 (Forall_forall _ _) Hhp'), list_elem_of_lookup_2, Hr.
    - done.
    - intros v r' pool' Hv. destruct (decide (vtx = v)) as [<- | Hne].
      + rewrite lookup_insert_eq in Hv. congruence.
      + rewrite lookup_insert_ne in Hv by done. by eapply Hgraph. }
  case_decide as Hlen.
  - destruct vtx as [| v0 [| ? ?]]; try done. simpl.
    apply Hstep.
    + simpl. by rewrite (right_id_L ∅ (∪)).
    + by apply Forall_forall.
    + apply Forall_app. split; [done |]. by repeat constructor.
  - destruct (pop vtx) as [[parent vlast] |] eqn:Hpop; [| done].
    destruct (graph st !! parent) as [[r pool] |] eqn:Hparent; [| done].
    destruct (heap st !! r) as [edges |] eqn:Hr; [| done].
    destruct (last_of_each edges) as [| cands] eqn:Hcands; [done |].
    simpl. apply Hstep.
    + apply pop_Some in Hpop as ->. rewrite union_list_snoc.
      by rewrite (Hgraph _ _ _ Hparent).
    + eapply last_of_each_sols; [| exact Hcands].
      eapply (proj1 (Forall_forall _ _) Hheap), list_elem_of_lookup_2, Hr.
    + done.
Qed.

(** The loop returns only good paths that cover a set of the target size. *)
Lemma while_stack_spec fuel st path :
  search_inv st →
  while_stack fuel sols target st = Some (inr (Some path)) →
  good path ∧ Z.of_nat (size (⋃ path)) = target.
Proof.
  revert st. induction fuel as [| fuel IH]; intros st Hinv; simpl; [done |].
  destruct (pop (stack st)) as [[stack' vtx] |] eqn:Hpop; [| done].
  pose proof (inv_stack _ Hinv) as Hstack.
  apply pop_Some in Hpop. rewrite Hpop in Hstack.
  apply Forall_app in Hstack as [Hstack' Hvtx].
  apply Forall_inv in Hvtx.
  destruct (graph st !! vtx) as [entry |] eqn:Hvisited.
  - apply IH. destruct Hinv as [_ Hheap Hgraph]. by split.
  - pose proof (visit_spec st stack' vtx Hinv Hvtx Hstack') as Hvisit.
    destruct (visit sols target vtx stack' st) as [x | [new_path | st']];
      [done | | by apply IH].
    by intros [= <-].
Qed.

(** So does the loop over the starting candidates. *)
Lemma search_starts_spec fuel starts path :
  Forall (λ x, x ∈ sols) starts →
  search_starts fuel sols target starts = Some (inr (Some path)) →
  good path ∧ Z.of_nat (size (⋃ path)) = target.
Proof.
  induction 1 as [| x starts Hx _ IH]; simpl; [done |].
  destruct (while_stack fuel sols target
              {| stack := [[x]]; graph := ∅; heap := [] |})
    as [[e | [p |]] |] eqn:Hrun; [done | | done | done].
  intros [= <-]. eapply while_stack_spec; [| exact Hrun].
  split; simpl.
  - apply Forall_singleton. by apply good_singleton.
  - constructor.
  - intros v r pool Hv. by rewrite lookup_empty in Hv.
Qed.

End search_proofs.

Section partition_proofs.
Context {E : Type} `{Countable E}.
Context `{Engine}.

Implicit Types (s : AccessibleBSP (E := E)) (e : E) (i : Z) (m : list Z).
Implicit Types (x y : gset Z) (X Y : gset E).

Lemma elem_of_posset i m : i ∈ posset m ↔ i ∈ m ∧ 0 < i.
Proof.
  unfold posset. rewrite elem_of_list_to_set, list_elem_of_filter. tauto.
Qed.

Lemma collect_solutions_None (models : list (list Z)) :
  collect_solutions models None = map posset models.
Proof.
  induction models as [| m models IH]; [done |].
  change (posset m :: collect_solutions models None
          = posset m :: map posset models).
  by rewrite IH.
Qed.

(** With a size limit the candidates are the solutions within the limit. *)
Lemma collect_solutions_Some (models : list (list Z)) (mgs : Z) :
  collect_solutions models (Some mgs)
  = filter (λ x, Z.of_nat (size x) ≤ mgs) (map posset models).
Proof.
  induction models as [| m models IH]; [done |].
  simpl map. rewrite filter_cons, <- IH.
  unfold collect_solutions. simpl. by case_decide.
Qed.

(** Remapping depends only on the positive literals present. *)
Lemma remap_solution_ext s (l1 l2 : list Z) :
  (∀ i, 0 < i → i ∈ l1 ↔ i ∈ l2) →
  remap_solution s l1 = remap_solution s l2.
Proof.
  intros Hsame.
  destruct (remap_solution s l1) as [a | X] eqn:H1,
           (remap_solution s l2) as [b | Y] eqn:H2.
  - apply remap_solution_error in H1, H2. by subst.
  - apply remap_solution_inr in H2 as [Hreg _].
    destruct (remap_solution_total s l1) as [X HX]; [| congruence].
    intros i Hi Hpos. apply Hreg; [by apply Hsame | done].
  - apply remap_solution_inr in H1 as [Hreg _].
    destruct (remap_solution_total s l2) as [Y HY]; [| congruence].
    intros i Hi Hpos. apply Hreg; [by apply Hsame | done].
  - apply remap_solution_inr in H1 as [_ HX], H2 as [_ HY].
    f_equal. apply set_eq. intros e. rewrite HX, HY.
    split; intros (i & Hi & Hpos & He); exists i;
      (split_and!; [by apply Hsame | done | done]).
Qed.

Lemma remap_posset s m :
  remap_solution s (elements (posset m)) = remap_solution s m.
Proof.
  apply remap_solution_ext. intros i Hpos.
  rewrite elem_of_elements, elem_of_posset. tauto.
Qed.

(** A set of identifiers remaps to [X]. *)
Definition remaps_to s x X : Prop := remap_solution s (elements x) = inr X.

Lemma remaps_to_inr s x X :
  remaps_to s x X →
  (∀ i, i ∈ x → 0 < i → is_Some (id2e s !! i))
  ∧ (∀ e, e ∈ X ↔ ∃ i, i ∈ x ∧ 0 < i ∧ id2e s !! i = Some e).
Proof.
  intros [Hreg HX]%remap_solution_inr. split.
  - intros i Hi. apply Hreg. by apply elem_of_elements.
  - intros e. rewrite HX. by setoid_rewrite elem_of_elements.
Qed.

Lemma remaps_to_fun s x X Y : remaps_to s x X → remaps_to s x Y → X = Y.
Proof. unfold remaps_to. congruence. Qed.

(** Disjoint sets of identifiers remap to disjoint sets of elements. *)
Lemma remaps_to_disjoint s x y X Y :
  wf s → x ## y → remaps_to s x X → remaps_to s y Y → X ## Y.
Proof.
  intros Hwf Hxy [_ HX]%remaps_to_inr [_ HY]%remaps_to_inr.
  apply elem_of_disjoint. intros e (i & Hi & _ & Hie)%HX (j & Hj & _ & Hje)%HY.
  assert (i = j) as -> by (eapply wf_id2e_inj; eauto).
  by apply (proj1 (elem_of_disjoint x y) Hxy j).
Qed.

Lemma remaps_to_union s (xs : list (gset Z)) (Xs : list (gset E)) e :
  Forall2 (remaps_to s) xs Xs →
  e ∈ ⋃ Xs ↔ ∃ i, i ∈ ⋃ xs ∧ 0 < i ∧ id2e s !! i = Some e.
Proof.
  induction 1 as [| x X xs Xs HxX _ IH]; simpl.
  - split; [by intros ?%elem_of_empty |].
    by intros (i & ?%elem_of_empty & _).
  - apply remaps_to_inr in HxX as [_ HX].
    rewrite elem_of_union, HX, IH. split.
    + intros [(i & Hi & Hr) | (i & Hi & Hr)]; exists i;
        (split; [apply elem_of_union; auto | done]).
    + intros (i & [Hi | Hi]%elem_of_union & Hr); [left | right]; by exists i.
Qed.

Lemma remap_all_Forall2 s (path : vertex) (parts : list (gset E)) :
  remap_all s path = inr parts → Forall2 (remaps_to s) path parts.
Proof.
  revert parts. induction path as [| x path IH]; intros parts; simpl.
  - intros [= <-]. constructor.
  - destruct (remap_solution s (elements x)) as [| X] eqn:HX; [done |].
    simpl. destruct (remap_all s path) as [| Xs]; [done |].
    simpl. intros [= <-]. constructor; [done | by apply IH].
Qed.

(** When every model remaps, the generator yields the remapped models. *)
Lemma solutions_loop_all s (models : list (list Z)) (enumerated : list (gset E))
    (found : bool) :
  Forall2 (λ m X, remap_solution s m = inr X) models enumerated →
  models ≠ [] ∨ found = true →
  solutions_loop s models found = map inr enumerated.
Proof.
  intros Hall. revert found.
  induction Hall as [| m X models enumerated Hm _ IH]; intros found Hne.
  - destruct Hne as [? | ->]; done.
  - simpl. rewrite Hm. f_equal. apply IH. by right.
Qed.

End partition_proofs.

Section partition_claims.
Context {E : Type} `{Countable E}.
Context `{Engine}.

Implicit Types (s : AccessibleBSP (E := E)) (e : E) (i : Z) (m : list Z).
Implicit Types (x y : gset Z) (X Y : gset E).

Lemma Forall2_choice {A B} (R : A → B → Prop) (l : list A) :
  Forall (λ a, ∃ b, R a b) l → ∃ k, Forall2 R l k.
Proof.
  induction 1 as [| a l [b Hb] _ [k Hk]]; [by exists [] |].
  exists (b :: k). by constructor.
Qed.

(** C1.  When [partition_solutions], called without [max_group_size],
    returns a list, the enumeration had at least one solution and every
    solution remapped; the sets returned are pairwise disjoint, each of them
    is one of the enumerated solutions, and their union is the union of all
    the enumerated solutions.  Nothing is said of the number of sets. *)
Theorem partition_solutions_disjoint_cover s fuel parts :
  wf s →
  partition_solutions fuel s None = Some (inr parts) →
  ∃ enumerated,
    solutions s = map inr enumerated
    ∧ enumerated ≠ []
    ∧ pairwise_disjoint parts
    ∧ Forall (λ X, X ∈ enumerated) parts
    ∧ ⋃ parts = ⋃ enumerated.
Proof.
  intros Hwf Hrun. unfold partition_solutions in Hrun.
  rewrite collect_solutions_None in Hrun. unfold solutions.
  destruct (itersolve (clauses s)) as [| m1 [| m2 rest]] eqn:Hmodels.
  - simpl in Hrun. destruct (solution s); [done |].
    by unfold search_and_return in Hrun.
  - simpl in Hrun.
    destruct (remap_solution s (elements (posset m1))) as [| X] eqn:HX;
      [done |].
    simpl in Hrun. injection Hrun as <-.
    rewrite remap_posset in HX. exists [X]. split_and!.
    + simpl. by rewrite HX.
    + done.
    + apply pairwise_disjoint_singleton.
    + apply Forall_singleton. left.
    + done.
  - change (map posset (m1 :: m2 :: rest))
      with (posset m1 :: posset m2 :: map posset rest) in Hrun.
    cbv beta iota zeta in Hrun. rewrite <- Hmodels in *.
    change (posset m1 :: posset m2 :: map posset rest)
      with (map posset (m1 :: m2 :: rest)) in Hrun.
    rewrite <- Hmodels in Hrun.
    set (models := itersolve (clauses s)) in *.
    set (cands := map posset models) in *.
    unfold search_and_return in Hrun.
    destruct (search_starts fuel (sort_by_neg_len cands)
                (Z.of_nat (size (⋃ cands))) (sort_by_neg_len cands))
      as [[x | [path |]] |] eqn:Hsearch; try done.
    injection Hrun as Hparts.
    apply search_starts_spec in Hsearch as [(Hin & _ & Hdisj) Hsize];
      [| by apply Forall_forall].
    apply remap_all_Forall2 in Hparts.
    (* the path covers the pool *)
    assert (Hcover : ⋃ path = ⋃ cands).
    { apply set_subseteq_size_eq; [| lia].
      intros i (x & Hx & Hi)%elem_of_union_list.
      apply elem_of_union_list. exists x. split; [| done].
      rewrite <- (sort_by_neg_len_perm cands).
      by apply (proj1 (Forall_forall _ _) Hin). }
    (* every model remaps *)
    assert (Hall : ∃ enumerated, Forall2 (remaps_to s) cands enumerated).
    { apply Forall2_choice, Forall_forall. intros x Hx.
      apply remap_solution_total. intros i Hi%elem_of_elements Hpos.
      assert (i ∈ ⋃ path) as (y & Hy & Hiy)%elem_of_union_list.
      { rewrite Hcover. apply elem_of_union_list. by exists x. }
      apply list_elem_of_lookup in Hy as [k Hk].
      destruct (Forall2_lookup_l _ _ _ _ _ Hparts Hk) as (Y & _ & HY).
      by apply (remaps_to_inr s y Y HY). }
    destruct Hall as [enumerated Henum]. exists enumerated. split_and!.
    + apply solutions_loop_all.
      * subst cands. clear -Henum. revert enumerated Henum.
        induction models as [| m models IH]; intros enumerated Henum.
        -- apply Forall2_nil_inv_l in Henum as ->. constructor.
        -- simpl in Henum.
           apply Forall2_cons_inv_l in Henum as (X & Xs & HX & HXs & ->).
           constructor; [| by apply IH].
           unfold remaps_to in HX. by rewrite remap_posset in HX.
      * left. subst models. by rewrite Hmodels.
    + intros ->. apply Forall2_nil_inv_r in Henum.
      subst cands models. by rewrite Hmodels in Henum.
    + intros j k X Y Hjk HjX HkY.
      destruct (Forall2_lookup_r _ _ _ _ _ Hparts HjX) as (x & Hx & HxX).
      destruct (Forall2_lookup_r _ _ _ _ _ Hparts HkY) as (y & Hy & HyY).
      eapply remaps_to_disjoint; [done | | done | done].
      by apply (Hdisj j k).
    + apply Forall_forall. intros X [j Hj]%list_elem_of_lookup.
      destruct (Forall2_lookup_r _ _ _ _ _ Hparts Hj) as (x & Hx & HxX).
      assert (x ∈ cands) as [k Hk]%list_elem_of_lookup.
      { rewrite <- (sort_by_neg_len_perm cands).
        eapply (proj1 (Forall_forall _ _) Hin), list_elem_of_lookup_2, Hx. }
      destruct (Forall2_lookup_l _ _ _ _ _ Henum Hk) as (X' & HX' & HxX').
      rewrite (remaps_to_fun s x X X' HxX HxX').
      eapply list_elem_of_lookup_2, HX'.
    + apply set_eq. intros e.
      rewrite (remaps_to_union s path parts e Hparts).
      rewrite (remaps_to_union s cands enumerated e Henum).
      by rewrite Hcover.
Qed.

(** C8.  [partition_solutions] raises [ValueError] when the enumeration
    gave at least one solution and [max_group_size] left no candidate (every
    solution is larger than it), and it raises [UnsatisfiableConstraints]
    when, with two candidates or more, the search from every starting
    candidate ends with an empty stack without having returned a path.  In
    both cases the outcome is the exception: no list is returned. *)
Theorem partition_solutions_errors s fuel (max_group_size : option Z) :
  let models := itersolve (clauses s) in
  let cands := collect_solutions models max_group_size in
  (∀ k, max_group_size = Some k →
     (cands = [] ↔ Forall (λ m, k < Z.of_nat (size (posset m))) models))
  ∧ (models ≠ [] → cands = [] →
     partition_solutions fuel s max_group_size = Some (inl ValueError))
  ∧ ((2 ≤ length cands)%nat →
     search_starts fuel (sort_by_neg_len cands) (Z.of_nat (size (⋃ cands)))
       (sort_by_neg_len cands) = Some (inr None) →
     partition_solutions fuel s max_group_size
     = Some (inl UnsatisfiableConstraints)).
Proof.
  intros models cands. split_and!.
  - intros k ->. subst cands. rewrite collect_solutions_Some.
    generalize models. clear. intros models.
    induction models as [| m models IH]; [by split |].
    simpl map. rewrite filter_cons, Forall_cons.
    case_decide as Hk.
    + split; [done | intros [? _]; lia].
    + rewrite IH. split; [intros ?; split; [lia | done] | tauto].
  - intros Hmodels Hcands. unfold partition_solutions.
    fold models. fold cands. rewrite Hcands.
    rewrite bool_decide_eq_false_2 by done. done.
  - intros Hlen Hsearch. unfold partition_solutions.
    fold models. fold cands.
    destruct cands as [| c1 [| c2 cands']] eqn:Hcands;
      [simpl in Hlen; lia | simpl in Hlen; lia |].
    cbv beta iota zeta. unfold search_and_return. by rewrite Hsearch.
Qed.

End partition_claims.

Section partition_examples.
Import Reference.

Lemma wf_a_or_b : wf a_or_b.
Proof. exact (wf_includes_any ["a"; "b"]%string 1 init wf_init). Qed.

(** The solutions of [a_or_b] are [{b}], [{a}] and [{a, b}]; the partition
    found is [{b}], [{a}]. *)
Lemma partition_solutions_disjoint_cover_witness :
  wf a_or_b
  ∧ partition_solutions 10 a_or_b None
    = Some (inr [{["b"%string]}; {["a"%string]}])
  ∧ ∃ enumerated,
      solutions a_or_b = map inr enumerated
      ∧ enumerated ≠ []
      ∧ pairwise_disjoint [{["b"%string]}; {["a"%string]}]
      ∧ Forall (λ X : gset string, X ∈ enumerated)
          [{["b"%string]}; {["a"%string]}]
      ∧ ⋃ [{["b"%string]}; {["a"%string]}] = ⋃ enumerated.
Proof.
  assert (Hrun : partition_solutions 10 a_or_b None
                 = Some (inr [{["b"%string]}; {["a"%string]}]))
    by (vm_compute; reflexivity).
  split; [exact wf_a_or_b |]. split; [exact Hrun |].
  exact (partition_solutions_disjoint_cover a_or_b 10 _ wf_a_or_b Hrun).
Defined.

(** A problem whose two solutions [{b, a}] and [{b, c}] overlap: [b] is
    required and exactly one of [a], [c]. *)
Definition b_with_a_xor_c : AccessibleBSP (E := string) :=
  exec (mutually_excludes ["a"; "c"]%string)
    (exec (includes_any ["a"; "c"]%string 1)
       (exec (includes "b"%string) init)).

Lemma partition_solutions_errors_witness :
  (itersolve (clauses a_or_b) ≠ []
   ∧ collect_solutions (itersolve (clauses a_or_b)) (Some 0) = []
   ∧ partition_solutions 10 a_or_b (Some 0) = Some (inl ValueError))
  ∧ (let cands :=
       collect_solutions (itersolve (clauses b_with_a_xor_c)) None in
     (2 ≤ length cands)%nat
     ∧ search_starts 10 (sort_by_neg_len cands) (Z.of_nat (size (⋃ cands)))
         (sort_by_neg_len cands) = Some (inr None)
     ∧ partition_solutions 10 b_with_a_xor_c None
       = Some (inl UnsatisfiableConstraints)).
Proof.
  split.
  - assert (H1 : itersolve (clauses a_or_b) ≠ [])
      by (vm_compute; discriminate).
    assert (H2 : collect_solutions (itersolve (clauses a_or_b)) (Some 0) = [])
      by (vm_compute; reflexivity).
    split; [exact H1 |]. split; [exact H2 |].
    exact (proj1 (proj2 (partition_solutions_errors a_or_b 10 (Some 0)))
             H1 H2).
  - intros cands.
    assert (H1 : (2 ≤ length cands)%nat) by (vm_compute; lia).
    assert (H2 : search_starts 10 (sort_by_neg_len cands)
                   (Z.of_nat (size (⋃ cands))) (sort_by_neg_len cands)
                 = Some (inr None))
      by (vm_compute; reflexivity).
    split; [exact H1 |]. split; [exact H2 |].
    exact (proj2 (proj2 (partition_solutions_errors b_with_a_xor_c 10 None))
             H1 H2).
Defined.

(** The same outcomes by evaluation. *)
Example partition_solutions_outcomes :
  itersolve (clauses b_with_a_xor_c) = [[1; -2; 3]; [1; 2; -3]]
  ∧ partition_solutions 10 b_with_a_xor_c None
    = Some (inl UnsatisfiableConstraints)
  ∧ partition_solutions 10 a_or_b (Some 0) = Some (inl ValueError)
  ∧ partition_solutions 10 a_or_b (Some 1)
    = Some (inr [{["b"%string]}; {["a"%string]}])
  ∧ partition_solutions 10 (exec (includes "a"%string) init) None
    = Some (inr [{["a"%string]}]).
Proof. split_and!; vm_compute; reflexivity. Qed.

(** A path of one vertex is never returned: with the solutions [{a}] and
    [{a, b}] the second alone covers the pool, yet the search, which only
    returns when it appends a candidate, ends without a path. *)
Definition a_with_optional_b : AccessibleBSP (E := string) :=
  exec (has_dependencies "b"%string (Some ["a"%string]) None)
    (exec (includes "a"%string) init).

Example partition_solutions_single_cover :
  itersolve (clauses a_with_optional_b) = [[1; -2]; [1; 2]]
  ∧ partition_solutions 10 a_with_optional_b None
    = Some (inl UnsatisfiableConstraints).
Proof. split; vm_compute; reflexivity. Qed.

End partition_examples.

(** ** Termination of the search *)

(** The words of length at most [n] over an alphabet. *)
Fixpoint words {A} (alphabet : list A) (n : nat) : list (list A) :=
  match n with
  | O => [[]]
  | S n' => [] :: flat_map (λ w, map (λ a, a :: w) alphabet) (words alphabet n')
  end.

Lemma elem_of_words {A} (alphabet : list A) (n : nat) (w : list A) :
  Forall (λ a, a ∈ alphabet) w → (length w ≤ n)%nat → w ∈ words alphabet n.
Proof.
  revert w. induction n as [| n IH]; intros w Hw Hlen.
  - destruct w; [left | simpl in Hlen; lia].
  - destruct w as [| a w]; [left |]. right.
    apply Forall_cons in Hw as [Ha Hw]. simpl in Hlen.
    apply list_elem_of_In, in_flat_map. exists w. split.
    + apply list_elem_of_In, IH; [done | lia].
    + apply list_elem_of_In, list_elem_of_fmap. by exists a.
Qed.

Section termination_proofs.
Variable sols : list (gset Z).
Variable target : Z.

Implicit Types (v vtx : vertex) (st : dfs_state).

(** Every vertex the search can meet: a finite set. *)
Definition universe : gset vertex := list_to_set (words sols (length sols)).

Lemma good_universe v : good sols v → v ∈ universe.
Proof.
  intros (Hin & Hnd & _). apply elem_of_list_to_set, elem_of_words; [done |].
  apply submseteq_length, NoDup_submseteq; [done |].
  by apply Forall_forall.
Qed.

(** A turn that goes on has put the vertex in [graph]. *)
Lemma visit_graph st stack' vtx st' :
  visit sols target vtx stack' st = inr (inr st') →
  dom (graph st') = {[vtx]} ∪ dom (graph st).
Proof.
  unfold visit.
  assert (Hstep : ∀ r hp cands pool,
    (match scan_candidates target vtx pool r cands hp with
     | inl new_vertex => inr (inl new_vertex)
     | inr hp' =>
         inr (inr {| stack := stack' ++ default [] (hp' !! r);
                     graph := <[vtx := (r, pool)]> (graph st);
                     heap := hp' |})
     end : result (vertex + dfs_state)) = inr (inr st') →
    dom (graph st') = {[vtx]} ∪ dom (graph st)).
  { intros r hp cands pool.
    destruct (scan_candidates target vtx pool r cands hp); [done |].
    intros [= <-]. simpl. apply dom_insert_L. }
  case_decide.
  - destruct vtx as [| v0 ?]; [done |]. simpl. apply Hstep.
  - destruct (pop vtx) as [[parent vlast] |]; [| done].
    destruct (graph st !! parent) as [[r pool] |]; [| done].
    destruct (heap st !! r) as [edges |]; [| done].
    destruct (last_of_each edges) as [| cands]; [done |].
    simpl. apply Hstep.
Qed.

(** More fuel does not change an outcome. *)
Lemma while_stack_mono fuel fuel' st r :
  (fuel ≤ fuel')%nat →
  while_stack fuel sols target st = Some r →
  while_stack fuel' sols target st = Some r.
Proof.
  revert fuel' st. induction fuel as [| fuel IH]; intros fuel' st Hle;
    [done |].
  destruct fuel' as [| fuel']; [lia |]. simpl.
  destruct (pop (stack st)) as [[stack' vtx] |]; [| done].
  destruct (graph st !! vtx).
  - apply IH. lia.
  - destruct (visit sols target vtx stack' st) as [| [|]]; try done.
    apply IH. lia.
Qed.

(** The loop ends: each turn either shortens the stack or puts a new vertex
    of the universe in [graph]. *)
Lemma while_stack_terminates st :
  search_inv sols st → ∃ fuel r, while_stack fuel sols target st = Some r.
Proof.
  remember (size (universe ∖ dom (graph st))) as n eqn:Hn.
  revert st Hn. induction n as [n IHn] using lt_wf_ind. intros st Hn.
  remember (length (stack st)) as k eqn:Hk.
  revert st Hn Hk. induction k as [| k IHk]; intros st Hn Hk Hinv.
  - exists 1%nat, (inr None). simpl.
    destruct (stack st); [done | simpl in Hk; lia].
  - destruct (pop (stack st)) as [[stack' vtx] |] eqn:Hpop.
    2: { exists 1%nat, (inr None). simpl. by rewrite Hpop. }
    pose proof (pop_Some _ _ _ Hpop) as Hstack.
    pose proof (inv_stack _ _ Hinv) as Hgood. rewrite Hstack in Hgood.
    apply Forall_app in Hgood as [Hgood' Hvtx]. apply Forall_inv in Hvtx.
    destruct (graph st !! vtx) as [entry |] eqn:Hvisited.
    + destruct (IHk {| stack := stack'; graph := graph st; heap := heap st |})
        as (fuel & r & Hrun).
      * done.
      * simpl. rewrite Hstack, length_app in Hk. simpl in Hk. lia.
      * destruct Hinv as [_ Hheap Hgraph]. by split.
      * exists (S fuel), r. simpl. by rewrite Hpop, Hvisited.
    + pose proof (visit_spec sols target st stack' vtx Hinv Hvtx Hgood')
        as Hvisit.
      destruct (visit sols target vtx stack' st) as [x | [path | st']]
        eqn:Hstep.
      * exists 1%nat, (inl x). simpl. by rewrite Hpop, Hvisited, Hstep.
      * exists 1%nat, (inr (Some path)). simpl.
        by rewrite Hpop, Hvisited, Hstep.
      * destruct (IHn (size (universe ∖ dom (graph st')))) with (st := st')
          as (fuel & r & Hrun); [| done | done |].
        -- subst n. apply subset_size.
           rewrite (visit_graph _ _ _ _ Hstep).
           apply good_universe in Hvtx.
           assert (Hnew : vtx ∉ dom (graph st)) by by apply not_elem_of_dom.
           split.
           ++ intros v [Hv Hd]%elem_of_difference.
              apply elem_of_difference. split; [done |].
              intros Hin. apply Hd, elem_of_union. by right.
           ++ intros Hsub.
              assert (Hin : vtx ∈ universe ∖ dom (graph st))
                by by apply elem_of_difference.
              apply Hsub, elem_of_difference in Hin as [_ Hd].
              apply Hd, elem_of_union. left. by apply elem_of_singleton.
        -- exists (S fuel), r. simpl. by rewrite Hpop, Hvisited, Hstep.
Qed.

Lemma search_starts_mono fuel fuel' (starts : list (gset Z)) r :
  (fuel ≤ fuel')%nat →
  search_starts fuel sols target starts = Some r →
  search_starts fuel' sols target starts = Some r.
Proof.
  intros Hle. induction starts as [| x starts IH]; simpl; [done |].
  destruct (while_stack fuel sols target
              {| stack := [[x]]; graph := ∅; heap := [] |})
    as [out |] eqn:Hrun; [| done].
  rewrite (while_stack_mono _ _ _ _ Hle Hrun).
  by destruct out as [| [|]].
Qed.

Lemma search_starts_terminates (starts : list (gset Z)) :
  Forall (λ x, x ∈ sols) starts →
  ∃ fuel r, search_starts fuel sols target starts = Some r.
Proof.
  induction 1 as [| x starts Hx _ (fuel2 & r2 & Hrest)].
  - by exists O, (inr None).
  - destruct (while_stack_terminates
                {| stack := [[x]]; graph := ∅; heap := [] |})
      as (fuel1 & r1 & Hrun).
    { split; simpl.
      - apply Forall_singleton. by apply good_singleton.
      - constructor.
      - intros v r pool Hv. by rewrite lookup_empty in Hv. }
    exists (fuel1 `max` fuel2)%nat.
    assert (Hrun' := while_stack_mono fuel1 (fuel1 `max` fuel2) _ _
                       ltac:(lia) Hrun).
    assert (Hrest' := search_starts_mono fuel2 (fuel1 `max` fuel2) _ _
                        ltac:(lia) Hrest).
    simpl. rewrite Hrun'. destruct r1 as [e | [path |]]; eauto.
Qed.

End termination_proofs.

Section totality.
Context {E : Type} `{Countable E}.
Context `{Engine}.

Implicit Types (s : AccessibleBSP (E := E)).

Lemma search_and_return_terminates s (sols : list (gset Z)) (target : Z) :
  ∃ fuel r, ∀ fuel', (fuel ≤ fuel')%nat →
    search_and_return fuel' s sols target = Some r.
Proof.
  destruct (search_starts_terminates sols target sols)
    as (fuel & r0 & Hrun); [by apply Forall_forall |].
  exists fuel.
  exists (match r0 with
          | inl x => inl x
          | inr (Some path) => remap_all s path
          | inr None => inl UnsatisfiableConstraints
          end).
  intros fuel' Hle. unfold search_and_return.
  rewrite (search_starts_mono sols target fuel fuel' sols r0 Hle Hrun).
  by destruct r0 as [| [|]].
Qed.

(** X1.  [partition_solutions] always ends: with enough fuel the model
    gives an outcome, a list or an exception, and more fuel gives the same
    one. *)
Theorem partition_solutions_terminates s (max_group_size : option Z) :
  ∃ fuel r, ∀ fuel', (fuel ≤ fuel')%nat →
    partition_solutions fuel' s max_group_size = Some r.
Proof.
  unfold partition_solutions.
  destruct (collect_solutions (itersolve (clauses s)) max_group_size)
    as [| c1 [| c2 cands]] eqn:Hcands.
  - destruct (negb (bool_decide (itersolve (clauses s) = []))).
    + by exists O, (inl ValueError).
    + destruct (solution s) as [x | sol].
      * by exists O, (inl x).
      * apply search_and_return_terminates.
  - by eexists O, _.
  - apply search_and_return_terminates.
Qed.

End totality.

(** * Further properties of the methods *)

(** ** Unit clauses: [includes], [excludes], [includes_all] *)

Section unit_clause_proofs.
Context {E : Type} `{Countable E}.

Implicit Types (s : AccessibleBSP (E := E)) (e : E) (i : Z).
Implicit Types (v : assignment) (ids : list Z).

Local Abbreviation with_clauses s cs :=
  {| clauses := clauses s ++ cs; e2id := e2id s; id2e := id2e s;
     variables := variables s |}.

(** [to_id] does not look at the clauses. *)
Lemma to_id_with_clauses s e (cs : list (list Z)) :
  to_id e (with_clauses s cs)
  = ((to_id e s).1, with_clauses (to_id e s).2 cs).
Proof.
  destruct (e2id s !! e) as [i |] eqn:Hl.
  - rewrite (to_id_known s e i Hl). by rewrite (to_id_known _ e i).
  - rewrite (to_id_fresh s e Hl). by rewrite (to_id_fresh _ e).
Qed.

Lemma includes_run s e :
  ∃ i s1, to_id e s = (inr i, s1)
          ∧ includes e s = (inr tt, with_clauses s1 [[i]]).
Proof.
  destruct (to_id_total s e) as (i & s1 & Hto & _).
  exists i, s1. split; [done |]. unfold includes. by rewrite bind_run, Hto.
Qed.

Lemma excludes_run s e :
  ∃ i s1, to_id e s = (inr i, s1)
          ∧ excludes e s = (inr tt, with_clauses s1 [[- i]]).
Proof.
  destruct (to_id_total s e) as (i & s1 & Hto & _).
  exists i, s1. split; [done |]. unfold excludes. by rewrite bind_run, Hto.
Qed.

(** [includes_all] registers the elements as the comprehension would and
    appends one unit clause for each. *)
Lemma includes_all_run s (es : list E) :
  ∃ ids s1, mapM to_id es s = (inr ids, s1)
            ∧ includes_all es s
              = (inr tt, with_clauses s1 (map (λ i, [i]) ids)).
Proof.
  assert (Hgen : ∀ cs, ∃ ids s1,
    mapM to_id es s = (inr ids, s1)
    ∧ includes_all es (with_clauses s cs)
      = (inr tt, with_clauses s1 (cs ++ map (λ i, [i]) ids))).
  { revert s. induction es as [| e es IH]; intros s cs.
    - exists [], s. split; [done |]. simpl. by rewrite app_nil_r.
    - destruct (to_id_total s e) as (i & s1 & Hto & _).
      destruct (IH s1 (cs ++ [[i]])) as (ids & s2 & Hm & Hrun).
      exists (i :: ids), s2. split.
      + by rewrite mapM_cons_run, Hto, Hm.
      + unfold includes_all in *. simpl forM_. rewrite bind_run.
        unfold includes at 1. rewrite bind_run, to_id_with_clauses, Hto.
        simpl. rewrite <- app_assoc in Hrun.
        rewrite <- app_assoc. exact Hrun. }
  destruct (Hgen []) as (ids & s1 & Hm & Hrun).
  exists ids, s1. split; [done |].
  by rewrite (with_clauses_nil s) in Hrun.
Qed.

(** What [includes] and [excludes] leave: the element registered under a
    positive identifier and one unit clause more. *)
Lemma includes_spec s e :
  wf s →
  let s' := exec (includes e) s in
  ∃ i, e2id s' !! e = Some i ∧ 0 < i ∧ wf s'
       ∧ eval (includes e) s = inr tt
       ∧ clauses s' = clauses s ++ [[i]].
Proof.
  intros Hwf s'. destruct (includes_run s e) as (i & s1 & Hto & Hrun).
  destruct (to_id_total s e) as (i' & s1' & Hto' & Hi & Hc & _).
  rewrite Hto in Hto'. injection Hto' as <- <-.
  pose proof (to_id_wf s e Hwf) as Hwf1. rewrite Hto in Hwf1. simpl in Hwf1.
  subst s'. unfold exec, eval. rewrite Hrun. simpl. exists i.
  split_and!; [done | by eapply wf_id_pos | by apply wf_with_clauses | done |].
  by rewrite Hc.
Qed.

Lemma excludes_spec s e :
  wf s →
  let s' := exec (excludes e) s in
  ∃ i, e2id s' !! e = Some i ∧ 0 < i ∧ wf s'
       ∧ eval (excludes e) s = inr tt
       ∧ clauses s' = clauses s ++ [[- i]].
Proof.
  intros Hwf s'. destruct (excludes_run s e) as (i & s1 & Hto & Hrun).
  destruct (to_id_total s e) as (i' & s1' & Hto' & Hi & Hc & _).
  rewrite Hto in Hto'. injection Hto' as <- <-.
  pose proof (to_id_wf s e Hwf) as Hwf1. rewrite Hto in Hwf1. simpl in Hwf1.
  subst s'. unfold exec, eval. rewrite Hrun. simpl. exists i.
  split_and!; [done | by eapply wf_id_pos | by apply wf_with_clauses | done |].
  by rewrite Hc.
Qed.

(** X3.  [includes_all] never raises; it appends one unit clause per
    element, in the order of the elements, and an assignment satisfies the
    new problem exactly when it satisfied the old one and makes the variable
    of every listed element true.  On an empty collection nothing changes. *)
Theorem includes_all_forces_all s (elements : list E) :
  wf s →
  let s' := exec (includes_all elements) s in
  ∃ ids,
    Forall2 (λ e i, e2id s' !! e = Some i) elements ids
    ∧ eval (includes_all elements) s = inr tt
    ∧ clauses s' = clauses s ++ map (λ i, [i]) ids
    ∧ (elements = [] → s' = s)
    ∧ ∀ v, cnf_true v (clauses s') = true
           ↔ cnf_true v (clauses s) = true ∧ Forall (λ i, v i = true) ids.
Proof.
  intros Hwf s'.
  destruct (includes_all_run s elements) as (ids & s1 & Hm & Hrun).
  destruct (mapM_to_id_total s elements)
    as (ids' & s1' & Hm' & Hall & Hc & _ & Hwf1).
  rewrite Hm in Hm'. injection Hm' as <- <-.
  assert (Hpos : Forall (λ i, 0 < i) ids).
  { eapply registered_pos; [exact (Hwf1 Hwf) | exact Hall]. }
  subst s'. unfold exec, eval. rewrite Hrun. simpl. exists ids.
  split_and!; [done | done | by rewrite Hc | |].
  - intros ->. simpl in Hm. injection Hm as <- <-. simpl.
    apply with_clauses_nil.
  - intros v. rewrite cnf_true_app, andb_true_iff, Hc.
    assert (cnf_true v (map (λ i, [i]) ids) = true
            ↔ Forall (λ i, v i = true) ids) as ->; [| done].
    clear -Hpos. induction Hpos as [| i ids Hi _ IH]; simpl; [by split |].
    rewrite andb_true_iff, Forall_cons, IH, orb_false_r.
    by rewrite lit_true_pos.
Qed.

End unit_clause_proofs.

(** ** Codependencies *)

Section codependency_proofs.
Context {E : Type} `{Countable E}.

Implicit Types (s : AccessibleBSP (E := E)) (e : E) (i j k : Z).
Implicit Types (v : assignment) (ids : list Z).

Local Abbreviation with_clauses s cs :=
  {| clauses := clauses s ++ cs; e2id := e2id s; id2e := id2e s;
     variables := variables s |}.

(** The two implications [has_codependencies] appends for a pair. *)
Definition pair_clauses (jk : list Z) : list (list Z) :=
  match jk with
  | [j; k] => [[j; - k]; [- j; k]]
  | _ => []
  end.

Lemma sublist_singleton_elem {A} (x : A) (l : list A) :
  x ∈ l → [x] `sublist_of` l.
Proof.
  induction 1 as [x l | x y l _ IH].
  - apply sublist_skip, sublist_nil_l.
  - by apply sublist_cons.
Qed.

(** Two different entries of a list form a pair of it, in one order or the
    other. *)
Lemma sublist_pair {A} (x y : A) (l : list A) :
  x ∈ l → y ∈ l → x ≠ y → [x; y] `sublist_of` l ∨ [y; x] `sublist_of` l.
Proof.
  induction l as [| a l IH]; intros Hx Hy Hne; [by apply elem_of_nil in Hx |].
  apply elem_of_cons in Hx as [-> | Hx], Hy as [-> | Hy]; try done.
  - left. by apply sublist_skip, sublist_singleton_elem.
  - right. by apply sublist_skip, sublist_singleton_elem.
  - destruct (IH Hx Hy Hne) as [Hs | Hs]; [left | right];
      by apply sublist_cons.
Qed.

Lemma combinations_length {A} (l c : list A) r :
  c ∈ combinations l r → length c = r.
Proof. by intros [_ ?]%elem_of_combinations. Qed.

(** The loop over the pairs never meets a tuple it cannot unpack. *)
Lemma codependency_loop_run (combs : list (list Z)) s :
  Forall (λ c, length c = 2%nat) combs →
  forM_ (λ jk,
           match jk with
           | [j; k] => append_clause [j; - k];; append_clause [- j; k]
           | _ => raise ValueError
           end) combs s
  = (inr tt, with_clauses s (flat_map pair_clauses combs)).
Proof.
  intros Hlen. revert s.
  induction Hlen as [| c combs Hc _ IH]; intros s.
  - simpl. unfold mret, M_ret. by rewrite with_clauses_nil.
  - destruct c as [| j [| k [| ? ?]]]; try done.
    simpl forM_. rewrite bind_run, bind_run, !append_clause_run.
    rewrite IH. simpl. by rewrite <- !app_assoc.
Qed.

Lemma has_codependencies_run s (es : list E) :
  ∃ ids s1, mapM to_id es s = (inr ids, s1)
            ∧ has_codependencies es s
              = (inr tt,
                 with_clauses s1 (flat_map pair_clauses (combinations ids 2))).
Proof.
  destruct (mapM_to_id_total s es) as (ids & s1 & Hm & _).
  exists ids, s1. split; [done |].
  unfold has_codependencies. rewrite bind_run, Hm, bind_run.
  unfold lift, itertools_combinations. simpl.
  apply codependency_loop_run, Forall_forall.
  intros c Hc. by apply combinations_length in Hc.
Qed.

(** The clauses of all the pairs hold exactly when the variables agree. *)
Lemma pair_clauses_true v ids :
  Forall (λ i, 0 < i) ids →
  Forall (λ c, clause_true v c = true)
    (flat_map pair_clauses (combinations ids 2))
  ↔ ∀ j k, j ∈ ids → k ∈ ids → v j = v k.
Proof.
  intros Hpos.
  assert (Hp : ∀ i, i ∈ ids → 0 < i) by by apply Forall_forall.
  assert (Hpair : ∀ j k, 0 < j → 0 < k →
    (clause_true v [j; - k] = true ∧ clause_true v [- j; k] = true)
    ↔ v j = v k).
  { intros j k Hj Hk. simpl.
    rewrite (lit_true_pos v j), (lit_true_pos v k),
      (lit_true_neg v j), (lit_true_neg v k) by done.
    destruct (v j), (v k); simpl; intuition congruence. }
  split.
  - intros Hall j k Hj Hk. destruct (decide (j = k)) as [-> | Hne]; [done |].
    assert (Hin : ∀ a b, [a; b] `sublist_of` ids →
      clause_true v [a; - b] = true ∧ clause_true v [- a; b] = true).
    { intros a b Hsub.
      assert ([a; b] ∈ combinations ids 2) as Hc
        by by apply elem_of_combinations.
      split; eapply (proj1 (Forall_forall _ _) Hall);
        apply list_elem_of_In, in_flat_map; exists [a; b];
        (split; [by apply list_elem_of_In | simpl; auto]). }
    destruct (sublist_pair j k ids Hj Hk Hne) as [Hs | Hs].
    + by apply Hpair, Hin; auto.
    + symmetry. by apply Hpair, Hin; auto.
  - intros Heq. apply Forall_forall.
    intros c (jk & Hjk & Hc)%list_elem_of_In%in_flat_map.
    apply list_elem_of_In, elem_of_combinations in Hjk as [Hsub Hlen].
    destruct jk as [| j [| k [| ? ?]]]; try done.
    assert (j ∈ ids ∧ k ∈ ids) as [Hj Hk].
    { split; apply (sublist_subseteq _ _ Hsub); [left | right; left]. }
    pose proof (proj2 (Hpair j k (Hp j Hj) (Hp k Hk)) (Heq j k Hj Hk))
      as [H1 H2].
    simpl in Hc. destruct Hc as [<- | [<- | []]]; done.
Qed.

(** X4.  [has_codependencies] never raises; for every pair of positions
    [j] before [k] of the elements' variables it appends the two clauses
    [j -k] and [-j k], and nothing else.  An assignment satisfies the new
    problem exactly when it satisfied the old one and gives all the listed
    variables the same truth value. *)
Theorem has_codependencies_same_value s (elements : list E) :
  wf s →
  let s' := exec (has_codependencies elements) s in
  ∃ ids,
    Forall2 (λ e i, e2id s' !! e = Some i) elements ids
    ∧ eval (has_codependencies elements) s = inr tt
    ∧ clauses s' = clauses s ++ flat_map pair_clauses (combinations ids 2)
    ∧ (∀ jk, jk ∈ combinations ids 2
             ↔ ∃ j k, jk = [j; k] ∧ [j; k] `sublist_of` ids)
    ∧ ∀ v, cnf_true v (clauses s') = true
           ↔ cnf_true v (clauses s) = true
             ∧ ∀ j k, j ∈ ids → k ∈ ids → v j = v k.
Proof.
  intros Hwf s'.
  destruct (has_codependencies_run s elements) as (ids & s1 & Hm & Hrun).
  destruct (mapM_to_id_total s elements)
    as (ids' & s1' & Hm' & Hall & Hc & _ & Hwf1).
  rewrite Hm in Hm'. injection Hm' as <- <-.
  assert (Hpos : Forall (λ i, 0 < i) ids).
  { eapply registered_pos; [exact (Hwf1 Hwf) | exact Hall]. }
  subst s'. unfold exec, eval. rewrite Hrun. simpl. exists ids.
  split_and!; [done | done | by rewrite Hc | |].
  - intros jk. rewrite elem_of_combinations. split.
    + intros [Hsub Hlen]. destruct jk as [| j [| k [| ? ?]]]; try done.
      by exists j, k.
    + by intros (j & k & -> & Hsub).
  - intros v. rewrite cnf_true_app, andb_true_iff, Hc.
    rewrite (cnf_true_Forall v (flat_map pair_clauses (combinations ids 2))).
    by rewrite (pair_clauses_true v ids Hpos).
Qed.

End codependency_proofs.

(** ** Counts out of range *)

Section range_proofs.
Context {E : Type} `{Countable E}.

Implicit Types (s : AccessibleBSP (E := E)) (e : E) (i : Z).





End range_proofs.

(** ** What no method undoes *)

Section keeps_proofs.
Context {E : Type} `{Countable E}.

Implicit Types (s : AccessibleBSP (E := E)) (e : E) (i : Z).

(** [s'] has the clauses of [s] as its first clauses and the entries of its
    dictionaries among its own. *)
Definition extends s s' : Prop :=
  clauses s `prefix_of` clauses s'
  ∧ e2id s ⊆ e2id s'
  ∧ id2e s ⊆ id2e s'
  ∧ variables s ≤ variables s'.

(** A computation that, returning or raising, leaves a well-formed problem
    that extends the one it started from. *)
Definition keeps {B} (c : M (E := E) B) : Prop :=
  ∀ s, wf s → wf (c s).2 ∧ extends s (c s).2.

Lemma extends_refl s : extends s s.
Proof. by split_and!. Qed.

Lemma extends_trans s1 s2 s3 : extends s1 s2 → extends s2 s3 → extends s1 s3.
Proof.
  intros (? & ? & ? & ?) (? & ? & ? & ?).
  split_and!; [by etrans | by etrans | by etrans | lia].
Qed.

Lemma keeps_bind {B C} (c : M B) (k : B → M C) :
  keeps c → (∀ b, keeps (k b)) → keeps (c ≫= k).
Proof.
  intros Hc Hk s Hwf. rewrite bind_run. destruct (Hc s Hwf) as [Hwf1 Hext1].
  destruct (c s) as [[x | b] s1]; [done |].
  destruct (Hk b s1 Hwf1) as [Hwf2 Hext2].
  split; [done | by eapply extends_trans].
Qed.

Lemma keeps_pure {B} (r : result B) : keeps (lift r).
Proof. intros s Hwf. split; [done | apply extends_refl]. Qed.

Lemma keeps_to_id e : keeps (to_id e).
Proof.
  intros s Hwf. split; [by apply to_id_wf |].
  destruct (e2id s !! e) as [i |] eqn:Hl.
  - rewrite (to_id_known s e i Hl). apply extends_refl.
  - rewrite (to_id_fresh s e Hl). simpl. split_and!; simpl.
    + done.
    + by apply insert_subseteq.
    + apply insert_subseteq.
      destruct (id2e s !! (variables s + 1)) as [x |] eqn:Hx; [| done].
      assert (is_Some (id2e s !! (variables s + 1))) as Hs by eauto.
      apply (wf_dense _ Hwf) in Hs. lia.
    + lia.
Qed.

Lemma keeps_append (c : list Z) : keeps (append_clause c).
Proof.
  intros s Hwf. rewrite append_clause_run. simpl.
  split; [by apply wf_with_clauses |].
  split_and!; simpl; [by apply prefix_app_r | done | done | lia].
Qed.

Lemma keeps_mapM {B C} (f : B → M C) (l : list B) :
  (∀ b, keeps (f b)) → keeps (mapM f l).
Proof.
  intros Hf. induction l as [| b l IH].
  - intros s Hwf. split; [done | apply extends_refl].
  - simpl. apply keeps_bind; [done |]. intros c.
    apply keeps_bind; [done |]. intros cs s Hwf.
    split; [done | apply extends_refl].
Qed.

Lemma keeps_forM {B} (f : B → M unit) (l : list B) :
  (∀ b, keeps (f b)) → keeps (forM_ f l).
Proof.
  intros Hf. induction l as [| b l IH].
  - intros s Hwf. split; [done | apply extends_refl].
  - simpl. by apply keeps_bind.
Qed.

Lemma keeps_raise {B} (x : exn) : keeps (raise (A := B) x).
Proof. intros s Hwf. split; [done | apply extends_refl]. Qed.

(** X7.  Starting from a well-formed problem, every method of the
    registry and of the constraint builder, whether it returns or raises,
    leaves a well-formed problem in which the earlier clauses are still the
    first clauses, unchanged and in the same order, and every identifier
    given earlier is still given to the same element. *)
Theorem methods_only_extend s :
  wf s →
  let ok := λ s', wf s' ∧ extends s s' in
  (∀ e, ok (exec (to_id e) s))
  ∧ (∀ es, ok (exec (mutually_excludes es) s))
  ∧ (∀ e, ok (exec (includes e) s))
  ∧ (∀ es, ok (exec (includes_all es) s))
  ∧ (∀ es n, ok (exec (includes_any es n) s))
  ∧ (∀ e, ok (exec (excludes e) s))
  ∧ (∀ es, ok (exec (has_codependencies es) s))
  ∧ (∀ e on n, ok (exec (has_dependencies e on n) s)).
Proof.
  intros Hwf ok. subst ok. unfold exec.
  assert (Hinc : ∀ e, keeps (includes e)).
  { intros e. apply keeps_bind; [apply keeps_to_id |].
    intros i. apply keeps_append. }
  split_and!.
  - intros e. by apply keeps_to_id.
  - intros es. apply keeps_bind; [| intros c; apply keeps_append | done].
    apply keeps_mapM. intros e.
    apply keeps_bind; [apply keeps_to_id |]. intros i s1 Hwf1.
    split; [done | apply extends_refl].
  - intros e. by apply Hinc.
  - intros es. by apply keeps_forM.
  - intros es n. apply keeps_bind; [apply keeps_mapM, keeps_to_id | | done].
    intros ids. apply keeps_bind; [apply keeps_pure |].
    intros combs. apply keeps_forM, keeps_append.
  - intros e. apply keeps_bind; [apply keeps_to_id | | done].
    intros i. apply keeps_append.
  - intros es. apply keeps_bind; [apply keeps_mapM, keeps_to_id | | done].
    intros ids. apply keeps_bind; [apply keeps_pure |].
    intros combs. apply keeps_forM. intros [| j [| k [| ? ?]]];
      try apply keeps_raise.
    apply keeps_bind; [apply keeps_append |]. intros _. apply keeps_append.
  - intros e on n. apply keeps_bind; [apply keeps_to_id | | done].
    intros eid. apply keeps_bind.
    { destruct on; [apply keeps_mapM, keeps_to_id | apply keeps_raise]. }
    intros ids. apply keeps_bind; [apply keeps_pure |].
    intros combs. apply keeps_forM. intros c. apply keeps_append.
Qed.

(** The identifiers in use are [1 .. variables]. *)
Lemma id2e_dom s : wf s → dom (id2e s) = list_to_set (seqZ 1 (variables s)).
Proof.
  intros Hwf. apply set_eq. intros i.
  rewrite elem_of_dom, (wf_dense _ Hwf), elem_of_list_to_set, elem_of_seqZ.
  lia.
Qed.

Lemma id2e_size s : wf s → size (id2e s) = Z.to_nat (variables s).
Proof.
  intros Hwf.
  rewrite <- size_dom, (id2e_dom s Hwf), size_list_to_set by apply NoDup_seqZ.
  apply length_seqZ.
Qed.

(** The two dictionaries have as many entries. *)
Lemma e2id_size s : wf s → size (e2id s) = size (id2e s).
Proof.
  intros Hwf. rewrite <- !length_map_to_list.
  rewrite <- (length_fmap prod_swap (map_to_list (id2e s))).
  apply Permutation_length, NoDup_Permutation.
  - apply NoDup_map_to_list.
  - apply (NoDup_fmap_2 _), NoDup_map_to_list.
  - intros [e i]. rewrite list_elem_of_fmap, elem_of_map_to_list. split.
    + intros Hl. exists (i, e). split; [done |].
      by apply elem_of_map_to_list, (wf_inverse _ Hwf).
    + intros ([i' e'] & [= -> ->] & Hl%elem_of_map_to_list).
      by apply (wf_inverse _ Hwf).
Qed.

(** X8.  In a well-formed problem [variables] counts the registered
    elements: both dictionaries have that many entries, and the identifiers
    in use are exactly [1 .. variables]. *)
Theorem variables_counts_elements s :
  wf s →
  dom (id2e s) = list_to_set (seqZ 1 (variables s))
  ∧ size (id2e s) = Z.to_nat (variables s)
  ∧ size (e2id s) = Z.to_nat (variables s).
Proof.
  intros Hwf. split_and!.
  - by apply id2e_dom.
  - by apply id2e_size.
  - by rewrite e2id_size, id2e_size.
Qed.

(** X9.  New, distinct elements passed to [to_id] one after the other
    get the next identifiers in that order: [variables + 1], [variables + 2],
    and so on, and [variables] grows by their number. *)
Theorem to_id_fresh_sequence s (es : list E) :
  NoDup es → Forall (λ e, e2id s !! e = None) es →
  eval (mapM to_id es) s
  = inr (seqZ (variables s + 1) (Z.of_nat (length es)))
  ∧ variables (exec (mapM to_id es) s)
    = variables s + Z.of_nat (length es).
Proof.
  unfold eval, exec. revert s.
  induction es as [| e es IH]; intros s Hnd Hnew.
  - simpl. split; [done | lia].
  - apply NoDup_cons in Hnd as [He Hnd].
    apply Forall_cons in Hnew as [Hl Hnew].
    rewrite mapM_cons_run, (to_id_fresh s e Hl).
    set (s1 := {| clauses := clauses s;
                  e2id := <[e := variables s + 1]> (e2id s);
                  id2e := <[variables s + 1 := e]> (id2e s);
                  variables := variables s + 1 |}).
    destruct (IH s1 Hnd) as [Hids Hvars].
    { apply Forall_forall. intros e' He'. simpl.
      rewrite lookup_insert_ne by (intros ->; done).
      by apply (proj1 (Forall_forall _ _) Hnew). }
    destruct (mapM to_id es s1) as [[x | ids] s2]; [done |].
    simpl in *. injection Hids as ->. split; [| lia].
    rewrite (seqZ_cons (variables s + 1)) by lia. do 3 f_equal; lia.
Qed.

End keeps_proofs.

(** ** Remapping and the enumeration *)

Section remap_proofs.
Context {E : Type} `{Countable E}.
Context `{Engine}.

Implicit Types (s : AccessibleBSP (E := E)) (e : E) (i : Z) (m : list Z).
Implicit Types (X : gset E).

(** A failed remapping found a positive literal that is not registered. *)
Lemma remap_solution_inl s m x :
  remap_solution s m = inl x →
  ∃ i, i ∈ m ∧ 0 < i ∧ id2e s !! i = None.
Proof.
  revert x. induction m as [| i m IH]; intros x; simpl; [done |].
  destruct (Z.ltb_spec 0 i) as [Hi | Hi].
  - unfold from_id. destruct (id2e s !! i) as [e |] eqn:Hl; simpl.
    + destruct (remap_solution s m) as [y |]; simpl; [| done].
      intros _. destruct (IH y eq_refl) as (j & Hj & Hpos & Hnone).
      exists j. split_and!; [by right | done | done].
    + intros _. exists i. split_and!; [left | done | done].
  - intros Hr. destruct (IH x Hr) as (j & Hj & Hpos & Hnone).
    exists j. split_and!; [by right | done | done].
Qed.

(** A remapped set has at most one element per literal. *)
Lemma remap_solution_size s m X :
  remap_solution s m = inr X → (size X ≤ length m)%nat.
Proof.
  revert X. induction m as [| i m IH]; intros X; simpl.
  - intros [= <-]. by rewrite size_empty.
  - destruct (0 <? i).
    + destruct (from_id s i) as [| e]; [done |]. simpl.
      destruct (remap_solution s m) as [| acc]; [done |]. simpl.
      intros [= <-]. specialize (IH acc eq_refl).
      pose proof (size_union_alt (C := gset E) {[e]} acc) as Hu.
      rewrite size_singleton in Hu.
      assert (Hd : (size (acc ∖ {[e]}) ≤ size acc)%nat).
      { apply subseteq_size. intros a Ha.
        by apply elem_of_difference in Ha as [? _]. }
      lia.
    + intros Hr. specialize (IH X Hr). lia.
Qed.

(** X10.  [remap_solution] looks only at the positive literals: it
    returns exactly when each of them is a registered identifier, and then
    the set holds the elements of those identifiers and nothing else, so no
    more elements than literals; otherwise it raises [KeyError], and it
    raises nothing else. *)
Theorem remap_solution_characterised s m :
  (∀ x, remap_solution s m = inl x →
     x = KeyError ∧ ∃ i, i ∈ m ∧ 0 < i ∧ id2e s !! i = None)
  ∧ (∀ X, remap_solution s m = inr X →
       (∀ i, i ∈ m → 0 < i → is_Some (id2e s !! i))
       ∧ (∀ e, e ∈ X ↔ ∃ i, i ∈ m ∧ 0 < i ∧ id2e s !! i = Some e)
       ∧ (size X ≤ length m)%nat)
  ∧ ((∀ i, i ∈ m → 0 < i → is_Some (id2e s !! i)) →
       ∃ X, remap_solution s m = inr X)
  ∧ (∀ m', (∀ i, 0 < i → i ∈ m ↔ i ∈ m') →
       remap_solution s m = remap_solution s m').
Proof.
  split_and!.
  - intros x Hr. split; [by eapply remap_solution_error |].
    by eapply remap_solution_inl.
  - intros X Hr. destruct (remap_solution_inr s m X Hr) as [Hreg HX].
    split_and!; [done | done | by eapply remap_solution_size].
  - apply remap_solution_total.
  - intros m'. apply remap_solution_ext.
Qed.

(** Every set the generator yields is the remapping of an enumerated
    model. *)
Lemma solutions_loop_from_model s (models : list (list Z)) (found : bool) X :
  inr X ∈ solutions_loop s models found →
  ∃ m, m ∈ models ∧ remap_solution s m = inr X.
Proof.
  revert found. induction models as [| m models IH]; intros found; simpl.
  - destruct (negb found); [| by intros ?%elem_of_nil].
    destruct (solution s); [| by intros ?%elem_of_nil].
    by intros [=]%list_elem_of_singleton.
  - destruct (remap_solution s m) as [x | Y] eqn:Hm.
    + by intros [=]%list_elem_of_singleton.
    + intros [[= ->] | Hin]%elem_of_cons.
      * exists m. split; [left | done].
      * destruct (IH true Hin) as (m' & Hm' & Hr).
        exists m'. split; [by right | done].
Qed.

(** X11.  The generator [solutions] yields the remapped models in the
    order of the engine: all of them when each one remaps, and otherwise
    those before the first model with an unregistered positive literal,
    followed by [KeyError].  Every set it yields comes from an enumerated
    model. *)
Theorem solutions_yields_models s :
  let models := itersolve (clauses s) in
  (∀ enumerated,
     Forall2 (λ m X, remap_solution s m = inr X) models enumerated →
     models ≠ [] → solutions s = map inr enumerated)
  ∧ (∀ before m after Xs,
       models = before ++ m :: after →
       Forall2 (λ m X, remap_solution s m = inr X) before Xs →
       (∃ i, i ∈ m ∧ 0 < i ∧ id2e s !! i = None) →
       solutions s = map inr Xs ++ [inl KeyError])
  ∧ (∀ X, inr X ∈ solutions s →
       ∃ m, m ∈ models ∧ remap_solution s m = inr X).
Proof.
  intros models. split_and!.
  - intros enumerated Hall Hne. apply solutions_loop_all; auto.
  - intros before m after Xs Hmodels Hbefore (i & Hi & Hpos & Hnone).
    unfold solutions. fold models. rewrite Hmodels.
    assert (Hm : remap_solution s m = inl KeyError).
    { destruct (remap_solution s m) as [x | X] eqn:Hr.
      - by apply remap_solution_error in Hr as ->.
      - apply remap_solution_inr in Hr as [Hreg _].
        destruct (Hreg i Hi Hpos) as [e He]. congruence. }
    generalize false. clear Hmodels.
    induction Hbefore as [| m0 X0 before Xs Hm0 _ IH]; intros found; simpl.
    + by rewrite Hm.
    + rewrite Hm0. f_equal. apply IH.
  - intros X. apply solutions_loop_from_model.
Qed.

End remap_proofs.

(** ** The largest solution *)

Section maximal_proofs.
Context {E : Type} `{Countable E}.
Context `{Engine}.

Implicit Types (s : AccessibleBSP (E := E)) (e : E) (i : Z) (m : list Z).
Implicit Types (X best : gset E) (last : option (gset E)).

(** The loop of [maximal_solution] over sets no larger than [variables]:
    it returns the first largest among the retained set and the sets still
    to come. *)
Lemma maximal_solution_loop_spec s last (rest : list (gset E)) :
  Forall (λ X, Z.of_nat (size X) ≤ variables s) rest →
  ∃ res,
    maximal_solution_loop s last (map inr rest) = inr res
    ∧ match res with
      | None => last = None ∧ rest = []
      | Some best =>
          (last = Some best ∨ best ∈ rest)
          ∧ (∀ l, last = Some l → (size l ≤ size best)%nat)
          ∧ Forall (λ X, (size X ≤ size best)%nat) rest
      end.
Proof.
  intros Hbound. revert last.
  induction Hbound as [| X rest HX Hbound IH]; intros last.
  - exists last. split; [done |]. destruct last as [l |]; [| done].
    split_and!; [by left | by intros ? [= ->] | constructor].
  - simpl.
    assert (Hbreak :
      Forall (λ Y, (size Y ≤ size X)%nat) rest
      ∨ Z.of_nat (size X) ≠ variables s).
    { destruct (decide (Z.of_nat (size X) = variables s)) as [Heq | Hne];
        [left | by right].
      eapply Forall_impl; [exact Hbound |]. simpl. intros Y HY. lia. }
    destruct last as [l |].
    + destruct (Z.ltb_spec (Z.of_nat (size l)) (Z.of_nat (size X)))
        as [Hlt | Hge].
      * case_decide as Hfull.
        -- exists (Some X). split; [done |].
           destruct Hbreak as [Hall | ?]; [| done].
           split_and!; [right; left | intros ? [= <-]; lia |].
           constructor; [done | exact Hall].
        -- destruct (IH (Some X)) as (res & Hrun & Hres).
           exists res. split; [done |].
           destruct res as [best |]; [| by destruct Hres].
           destruct Hres as (Hin & Hlast & Hall).
           specialize (Hlast X eq_refl). split_and!.
           ++ right. destruct Hin as [[= ->] | Hin]; [left | by right].
           ++ intros ? [= <-]. lia.
           ++ by constructor.
      * destruct (IH (Some l)) as (res & Hrun & Hres).
        exists res. split; [done |].
        destruct res as [best |]; [| by destruct Hres].
        destruct Hres as (Hin & Hlast & Hall).
        specialize (Hlast l eq_refl). split_and!.
        -- destruct Hin as [Hin | Hin]; [by left | right; by right].
        -- by intros ? [= <-].
        -- constructor; [lia | done].
    + case_decide as Hfull.
      * exists (Some X). split; [done |].
        destruct Hbreak as [Hall | ?]; [| done].
        split_and!; [right; left | done |]. by constructor.
      * destruct (IH (Some X)) as (res & Hrun & Hres).
        exists res. split; [done |].
        destruct res as [best |]; [| by destruct Hres].
        destruct Hres as (Hin & Hlast & Hall).
        specialize (Hlast X eq_refl). split_and!.
        -- right. destruct Hin as [[= ->] | Hin]; [left | by right].
        -- done.
        -- by constructor.
Qed.

(** A remapped set has no more elements than there are variables. *)
Lemma remap_solution_bounded s m X :
  wf s → remap_solution s m = inr X → Z.of_nat (size X) ≤ variables s.
Proof.
  intros Hwf [_ HX]%remap_solution_inr.
  assert (Hsize : size (e2id s) = Z.to_nat (variables s))
    by by rewrite e2id_size, id2e_size.
  assert (Hsub : X ⊆ dom (e2id s)).
  { intros e (i & _ & _ & Hi)%HX. apply elem_of_dom. exists i.
    by apply (wf_inverse _ Hwf). }
  apply subseteq_size in Hsub. rewrite size_dom in Hsub.
  pose proof (wf_nonneg _ Hwf). lia.
Qed.

(** X12.  When every enumerated model remaps, [maximal_solution] returns
    one of the enumerated solutions, and none of them has more elements.
    When the enumeration is empty it raises what [solution] raises. *)
Theorem maximal_solution_largest s :
  wf s →
  (∀ enumerated : list (gset E),
     solutions s = map inr enumerated → enumerated ≠ [] →
     ∃ best, maximal_solution s = inr (Some best)
             ∧ best ∈ enumerated
             ∧ Forall (λ X, (size X ≤ size best)%nat) enumerated)
  ∧ (∀ x, itersolve (clauses s) = [] → solution s = inl x →
       maximal_solution s = inl x).
Proof.
  intros Hwf. split.
  - intros enumerated Hsols Hne. unfold maximal_solution. rewrite Hsols.
    destruct (maximal_solution_loop_spec s None enumerated)
      as (res & Hrun & Hres).
    { apply Forall_forall. intros X HX.
      assert (inr X ∈ solutions s) as Hin.
      { rewrite Hsols. apply list_elem_of_fmap. by exists X. }
      apply solutions_loop_from_model in Hin as (m & _ & Hm).
      by eapply remap_solution_bounded. }
    destruct res as [best |]; [| by destruct Hres].
    destruct Hres as ([? | Hin] & _ & Hall); [done |].
    by exists best.
  - intros x Hnil Hx. unfold maximal_solution.
    rewrite (solutions_empty s Hnil), Hx. done.
Qed.

End maximal_proofs.

(** ** Queries with a sound engine *)

Section sound_engine_proofs.
Context {E : Type} `{Countable E}.
Context `{Engine}.

Implicit Types (s : AccessibleBSP (E := E)) (e x : E) (i : Z) (m : list Z).
Implicit Types (X : gset E) (v : assignment).

(** The engine is sound on a clause set: the model of [solve] and the
    models of [itersolve] satisfy every clause. *)
Definition engine_sound_on (cs : list (list Z)) : Prop :=
  (∀ m, solve cs = Model m → cnf_true (model_assignment m) cs = true)
  ∧ Forall (λ m, cnf_true (model_assignment m) cs = true) (itersolve cs).

(** A sound engine that does not give up finds nothing on clauses that no
    assignment satisfies. *)
Lemma unsatisfiable_engine_answers (cs : list (list Z)) :
  (∀ v, cnf_true v cs = false) → engine_sound_on cs → solve cs ≠ UNKNOWN →
  solve cs = UNSAT ∧ itersolve cs = [].
Proof.
  intros Hfalse [Hsolve Hiter] Hdecides. split.
  - destruct (solve cs) as [m | |] eqn:Hs; [| done | done].
    specialize (Hsolve m eq_refl). by rewrite Hfalse in Hsolve.
  - destruct (itersolve cs) as [| m ms]; [done |].
    apply Forall_inv in Hiter. by rewrite Hfalse in Hiter.
Qed.

(** X13.  On a problem that no assignment satisfies, with an engine that
    is sound on its clauses and does not give up, every query raises
    [UnsatisfiableConstraints]: [solution], the generator [solutions] at its
    first step, [minimal_solution], [maximal_solution] and
    [partition_solutions] with any limit. *)
Theorem unsatisfiable_queries_raise s :
  (∀ v, cnf_true v (clauses s) = false) →
  engine_sound_on (clauses s) →
  solve (clauses s) ≠ UNKNOWN →
  solution s = inl UnsatisfiableConstraints
  ∧ solutions s = [inl UnsatisfiableConstraints]
  ∧ minimal_solution s = inl UnsatisfiableConstraints
  ∧ maximal_solution s = inl UnsatisfiableConstraints
  ∧ ∀ fuel max_group_size,
      partition_solutions fuel s max_group_size
      = Some (inl UnsatisfiableConstraints).
Proof.
  intros Hfalse Hsound Hdecides.
  destruct (unsatisfiable_engine_answers _ Hfalse Hsound Hdecides)
    as [Hunsat Hnil].
  assert (Hsol : solution s = inl UnsatisfiableConstraints).
  { unfold solution. by rewrite Hunsat. }
  assert (Hsols : solutions s = [inl UnsatisfiableConstraints]).
  { by rewrite (solutions_empty s Hnil), Hsol. }
  split_and!; [done | done | | |].
  - unfold minimal_solution. by rewrite Hsols.
  - unfold maximal_solution. by rewrite Hsols.
  - intros fuel mgs. unfold partition_solutions. rewrite Hnil.
    assert (collect_solutions [] mgs = []) as -> by done.
    simpl. by rewrite Hsol.
Qed.

(** X14.  After [includes x], with an engine sound on the new clauses,
    every solution that [solutions] yields and the solution that [solution]
    returns contain [x]; after [excludes x] none of them does. *)
Theorem includes_excludes_in_solutions s x :
  wf s →
  (let s' := exec (includes x) s in
   engine_sound_on (clauses s') →
   (∀ X, inr X ∈ solutions s' → x ∈ X)
   ∧ (∀ X, solution s' = inr X → x ∈ X))
  ∧ (let s' := exec (excludes x) s in
     engine_sound_on (clauses s') →
     (∀ X, inr X ∈ solutions s' → x ∉ X)
     ∧ (∀ X, solution s' = inr X → x ∉ X)).
Proof.
  intros Hwf. split.
  - intros s' [Hsolve Hiter].
    destruct (includes_spec s x Hwf) as (i & Hi & Hpos & Hwf' & _ & Hc).
    fold s' in Hi, Hwf', Hc.
    assert (Hin : ∀ m X, cnf_true (model_assignment m) (clauses s') = true →
                         remap_solution s' m = inr X → x ∈ X).
    { intros m X Hsat [_ HX]%remap_solution_inr. apply HX. exists i.
      split_and!; [| done | by apply (wf_inverse _ Hwf')].
      rewrite Hc, cnf_true_app, andb_true_iff in Hsat.
      destruct Hsat as [_ Hsat]. simpl in Hsat.
      rewrite lit_true_pos in Hsat by done.
      rewrite !orb_false_r, andb_true_r in Hsat.
      unfold model_assignment in Hsat. by case_bool_decide. }
    split.
    + intros X (m & Hm & Hr)%solutions_loop_from_model.
      eapply Hin; [| exact Hr].
      by apply (proj1 (Forall_forall _ _) Hiter).
    + intros X. unfold solution.
      destruct (solve (clauses s')) as [m | |] eqn:Hs; [| done | done].
      intros Hr. eapply Hin; [| exact Hr]. by apply Hsolve.
  - intros s' [Hsolve Hiter].
    destruct (excludes_spec s x Hwf) as (i & Hi & Hpos & Hwf' & _ & Hc).
    fold s' in Hi, Hwf', Hc.
    assert (Hout : ∀ m X, cnf_true (model_assignment m) (clauses s') = true →
                          remap_solution s' m = inr X → x ∉ X).
    { intros m X Hsat [_ HX]%remap_solution_inr (j & Hj & _ & Hjx)%HX.
      assert (j = i) as ->.
      { apply (wf_inverse _ Hwf') in Hjx. congruence. }
      rewrite Hc, cnf_true_app, andb_true_iff in Hsat.
      destruct Hsat as [_ Hsat]. simpl in Hsat.
      rewrite lit_true_neg in Hsat by done.
      rewrite !orb_false_r, andb_true_r in Hsat.
      unfold model_assignment in Hsat. by case_bool_decide. }
    split.
    + intros X (m & Hm & Hr)%solutions_loop_from_model.
      eapply Hout; [| exact Hr].
      by apply (proj1 (Forall_forall _ _) Hiter).
    + intros X. unfold solution.
      destruct (solve (clauses s')) as [m | |] eqn:Hs; [| done | done].
      intros Hr. eapply Hout; [| exact Hr]. by apply Hsolve.
Qed.

(** X15.  Requiring and forbidding the same element, in either order,
    leaves a problem that no assignment satisfies: with an engine that is
    sound on it and does not give up, [solution] raises
    [UnsatisfiableConstraints]. *)
Theorem includes_and_excludes_conflict s x :
  wf s →
  let s1 := exec (excludes x) (exec (includes x) s) in
  let s2 := exec (includes x) (exec (excludes x) s) in
  (∀ v, cnf_true v (clauses s1) = false)
  ∧ (∀ v, cnf_true v (clauses s2) = false)
  ∧ (engine_sound_on (clauses s1) → solve (clauses s1) ≠ UNKNOWN →
       solution s1 = inl UnsatisfiableConstraints)
  ∧ (engine_sound_on (clauses s2) → solve (clauses s2) ≠ UNKNOWN →
       solution s2 = inl UnsatisfiableConstraints).
Proof.
  intros Hwf s1 s2.
  assert (H1 : ∀ v, cnf_true v (clauses s1) = false).
  { intros v.
    destruct (includes_spec s x Hwf) as (i & Hi & Hpos & Hwf' & _ & Hc).
    destruct (excludes_spec _ x Hwf') as (j & Hj & _ & _ & _ & Hc').
    fold s1 in Hj, Hc'.
    assert (j = i) as ->.
    { unfold s1, exec in Hj. unfold exec in Hi.
      destruct (excludes_run (includes x s).2 x) as (k & s3 & Hto & Hrun).
      rewrite Hrun in Hj. simpl in Hj.
      rewrite (to_id_known _ x i Hi) in Hto. injection Hto as <- <-.
      congruence. }
    rewrite Hc', Hc, !cnf_true_app. simpl.
    rewrite (lit_true_pos v i), (lit_true_neg v i) by done.
    destruct (v i); simpl; by rewrite ?andb_false_r. }
  assert (H2 : ∀ v, cnf_true v (clauses s2) = false).
  { intros v.
    destruct (excludes_spec s x Hwf) as (i & Hi & Hpos & Hwf' & _ & Hc).
    destruct (includes_spec _ x Hwf') as (j & Hj & _ & _ & _ & Hc').
    fold s2 in Hj, Hc'.
    assert (j = i) as ->.
    { unfold s2, exec in Hj. unfold exec in Hi.
      destruct (includes_run (excludes x s).2 x) as (k & s3 & Hto & Hrun).
      rewrite Hrun in Hj. simpl in Hj.
      rewrite (to_id_known _ x i Hi) in Hto. injection Hto as <- <-.
      congruence. }
    rewrite Hc', Hc, !cnf_true_app. simpl.
    rewrite (lit_true_pos v i), (lit_true_neg v i) by done.
    destruct (v i); simpl; by rewrite ?andb_false_r. }
  split_and!; [done | done | |].
  - intros Hsound Hdec. unfold solution.
    by destruct (unsatisfiable_engine_answers _ H1 Hsound Hdec) as [-> _].
  - intros Hsound Hdec. unfold solution.
    by destruct (unsatisfiable_engine_answers _ H2 Hsound Hdec) as [-> _].
Qed.

End sound_engine_proofs.

(** ** The partition under a size limit *)

Section path_length_proofs.
Variable sols : list (gset Z).
Variable target : Z.

Implicit Types (v vtx path : vertex) (st : dfs_state).

(** A path is returned only at the moment a candidate is appended. *)
Lemma scan_candidates_path vtx pool r (cands : list (gset Z)) hp path :
  scan_candidates target vtx pool r cands hp = inl path →
  ∃ x, path = vtx ++ [x].
Proof.
  revert hp. induction cands as [| x cands IH]; intros hp; simpl; [done |].
  case_decide; [apply IH |]. case_decide; [| apply IH].
  intros [= <-]. by exists x.
Qed.

Lemma visit_path_length st stack' vtx path :
  visit sols target vtx stack' st = inr (inl path) → (2 ≤ length path)%nat.
Proof.
  unfold visit.
  assert (Hstep : ∀ r hp cands pool,
    vtx ≠ [] →
    (match scan_candidates target vtx pool r cands hp with
     | inl new_vertex => inr (inl new_vertex)
     | inr hp' =>
         inr (inr {| stack := stack' ++ default [] (hp' !! r);
                     graph := <[vtx := (r, pool)]> (graph st);
                     heap := hp' |})
     end : result (vertex + dfs_state)) = inr (inl path) →
    (2 ≤ length path)%nat).
  { intros r hp cands pool Hne.
    destruct (scan_candidates target vtx pool r cands hp) as [p |] eqn:Hscan;
      [| done].
    intros [= <-]. apply scan_candidates_path in Hscan as [x ->].
    rewrite length_app. simpl. destruct vtx; [done | simpl; lia]. }
  case_decide.
  - destruct vtx as [| v0 ?]; [done |]. simpl. by apply Hstep.
  - destruct (pop vtx) as [[parent vlast] |] eqn:Hpop; [| done].
    destruct (graph st !! parent) as [[r pool] |]; [| done].
    destruct (heap st !! r) as [edges |]; [| done].
    destruct (last_of_each edges) as [| cands]; [done |].
    simpl. apply Hstep. apply pop_Some in Hpop as ->. by destruct parent.
Qed.

Lemma while_stack_path_length fuel st path :
  while_stack fuel sols target st = Some (inr (Some path)) →
  (2 ≤ length path)%nat.
Proof.
  revert st. induction fuel as [| fuel IH]; intros st; simpl; [done |].
  destruct (pop (stack st)) as [[stack' vtx] |]; [| done].
  destruct (graph st !! vtx); [apply IH |].
  destruct (visit sols target vtx stack' st) as [| [p | st']] eqn:Hvisit;
    [done | | apply IH].
  intros [= <-]. by eapply visit_path_length.
Qed.

Lemma search_starts_path_length fuel (starts : list (gset Z)) path :
  search_starts fuel sols target starts = Some (inr (Some path)) →
  (2 ≤ length path)%nat.
Proof.
  induction starts as [| x starts IH]; simpl; [done |].
  destruct (while_stack fuel sols target
              {| stack := [[x]]; graph := ∅; heap := [] |})
    as [[| [p |]] |] eqn:Hrun; try done.
  intros [= <-]. by eapply while_stack_path_length.
Qed.

End path_length_proofs.

Section partition_limit_proofs.
Context {E : Type} `{Countable E}.
Context `{Engine}.

Implicit Types (s : AccessibleBSP (E := E)) (e : E) (i : Z) (m : list Z).
Implicit Types (x y : gset Z) (X Y : gset E).

(** The search on any list of candidates: what a returned list is. *)
Lemma search_and_return_cover s fuel (cands : list (gset Z))
    (parts : list (gset E)) :
  wf s →
  search_and_return fuel s (sort_by_neg_len cands)
    (Z.of_nat (size (⋃ cands))) = Some (inr parts) →
  ∃ path kept,
    Forall2 (remaps_to s) path parts
    ∧ Forall (λ x, x ∈ cands) path
    ∧ Forall2 (remaps_to s) cands kept
    ∧ pairwise_disjoint parts
    ∧ Forall (λ X, X ∈ kept) parts
    ∧ ⋃ parts = ⋃ kept
    ∧ (2 ≤ length parts)%nat.
Proof.
  intros Hwf Hrun. unfold search_and_return in Hrun.
  destruct (search_starts fuel (sort_by_neg_len cands)
              (Z.of_nat (size (⋃ cands))) (sort_by_neg_len cands))
    as [[x | [path |]] |] eqn:Hsearch; try done.
  injection Hrun as Hparts.
  pose proof (search_starts_path_length _ _ _ _ _ Hsearch) as Hlen.
  apply search_starts_spec in Hsearch as [(Hin & _ & Hdisj) Hsize];
    [| by apply Forall_forall].
  apply remap_all_Forall2 in Hparts.
  assert (Hin' : Forall (λ x, x ∈ cands) path).
  { eapply Forall_impl; [exact Hin |]. simpl. intros x Hx.
    by rewrite <- (sort_by_neg_len_perm cands). }
  assert (Hcover : ⋃ path = ⋃ cands).
  { apply set_subseteq_size_eq; [| lia].
    intros i (x & Hx & Hi)%elem_of_union_list.
    apply elem_of_union_list. exists x. split; [| done].
    by apply (proj1 (Forall_forall _ _) Hin'). }
  assert (Hall : ∃ kept, Forall2 (remaps_to s) cands kept).
  { apply Forall2_choice, Forall_forall. intros x Hx.
    apply remap_solution_total. intros i Hi%elem_of_elements Hpos.
    assert (i ∈ ⋃ path) as (y & Hy & Hiy)%elem_of_union_list.
    { rewrite Hcover. apply elem_of_union_list. by exists x. }
    apply list_elem_of_lookup in Hy as [k Hk].
    destruct (Forall2_lookup_l _ _ _ _ _ Hparts Hk) as (Y & _ & HY).
    by apply (remaps_to_inr s y Y HY). }
  destruct Hall as [kept Hkept]. exists path, kept.
  split_and!; [done | done | done | | | |].
  - intros j k X Y Hjk HjX HkY.
    destruct (Forall2_lookup_r _ _ _ _ _ Hparts HjX) as (x & Hx & HxX).
    destruct (Forall2_lookup_r _ _ _ _ _ Hparts HkY) as (y & Hy & HyY).
    eapply remaps_to_disjoint; [done | | done | done].
    by apply (Hdisj j k).
  - apply Forall_forall. intros X [j Hj]%list_elem_of_lookup.
    destruct (Forall2_lookup_r _ _ _ _ _ Hparts Hj) as (x & Hx & HxX).
    assert (x ∈ cands) as [k Hk]%list_elem_of_lookup.
    { eapply (proj1 (Forall_forall _ _) Hin'), list_elem_of_lookup_2, Hx. }
    destruct (Forall2_lookup_l _ _ _ _ _ Hkept Hk) as (X' & HX' & HxX').
    rewrite (remaps_to_fun s x X X' HxX HxX').
    eapply list_elem_of_lookup_2, HX'.
  - apply set_eq. intros e.
    rewrite (remaps_to_union s path parts e Hparts).
    rewrite (remaps_to_union s cands kept e Hkept).
    by rewrite Hcover.
  - by rewrite <- (Forall2_length _ _ _ Hparts).
Qed.

(** X16.  With or without [max_group_size], a list that
    [partition_solutions] returns is made of pairwise disjoint sets, each the
    remapping of a candidate (a solution within the limit), whose union is
    the union of all the candidates; with a limit [k] no set has more than
    [k] elements.  The list has a single set only when there is a single
    candidate; otherwise it has at least two. *)
Theorem partition_solutions_within_limit s fuel (max_group_size : option Z)
    (parts : list (gset E)) :
  wf s →
  partition_solutions fuel s max_group_size = Some (inr parts) →
  let cands := collect_solutions (itersolve (clauses s)) max_group_size in
  ∃ kept,
    Forall2 (λ x X, remap_solution s (elements x) = inr X) cands kept
    ∧ kept ≠ []
    ∧ pairwise_disjoint parts
    ∧ Forall (λ X, X ∈ kept) parts
    ∧ ⋃ parts = ⋃ kept
    ∧ (∀ k, max_group_size = Some k →
         Forall (λ X, Z.of_nat (size X) ≤ k) parts)
    ∧ (length parts = 1%nat ↔ length cands = 1%nat).
Proof.
  intros Hwf Hrun cands. unfold partition_solutions in Hrun.
  fold cands in Hrun.
  assert (Hsmall : ∀ k, max_group_size = Some k →
            Forall (λ x, Z.of_nat (size x) ≤ k) cands).
  { intros k ->. subst cands. rewrite collect_solutions_Some.
    apply Forall_forall. by intros x [? _]%list_elem_of_filter. }
  assert (Hsizes : ∀ (path : vertex) (ps : list (gset E)) k,
            max_group_size = Some k →
            Forall (λ x, x ∈ cands) path →
            Forall2 (remaps_to s) path ps →
            Forall (λ X, Z.of_nat (size X) ≤ k) ps).
  { intros path ps k Hk Hin Hps. apply Forall_forall.
    intros X [j Hj]%list_elem_of_lookup.
    destruct (Forall2_lookup_r _ _ _ _ _ Hps Hj) as (x & Hx & HxX).
    apply remap_solution_size in HxX.
    rewrite <- (size_list_to_set (C := gset Z)) in HxX
      by apply NoDup_elements.
    rewrite list_to_set_elements_L in HxX.
    assert (x ∈ cands) as Hxc.
    { eapply (proj1 (Forall_forall _ _) Hin), list_elem_of_lookup_2, Hx. }
    pose proof (proj1 (Forall_forall _ _) (Hsmall k Hk) x Hxc) as Hxk.
    simpl in Hxk. lia. }
  destruct cands as [| c1 [| c2 cands']] eqn:Hcands.
  - destruct (negb (bool_decide (itersolve (clauses s) = []))); [done |].
    destruct (solution s); [done |]. by unfold search_and_return in Hrun.
  - destruct (remap_solution s (elements c1)) as [| X] eqn:HX; [done |].
    simpl in Hrun. injection Hrun as <-. exists [X].
    split_and!; try done.
    + by repeat constructor.
    + apply pairwise_disjoint_singleton.
    + apply Forall_singleton. left.
    + intros k Hk. apply (Hsizes [c1] [X] k Hk).
      * apply Forall_singleton. left.
      * by repeat constructor.
  - cbv beta iota zeta in Hrun.
    destruct (search_and_return_cover s fuel _ parts Hwf Hrun)
      as (path & kept & Hparts & Hin & Hkept & Hdisj & Hsub & Hunion & Hlen).
    exists kept. split_and!; try done.
    + intros ->. by apply Forall2_nil_inv_r in Hkept.
    + intros k Hk. by apply (Hsizes path parts k Hk).
    + simpl. split; lia.
Qed.

End partition_limit_proofs.

(** ** [__str__] *)

Section str_proofs.
Context {E : Type} `{Countable E}.

Implicit Types (s : AccessibleBSP (E := E)) (x : string).

Lemma but_last_snoc x (c : Ascii.ascii) :
  but_last (x +:+ String c EmptyString) = x.
Proof.
  induction x as [| a x IH]; [done |].
  change (String a x +:+ String c EmptyString)
    with (String a (x +:+ String c EmptyString)).
  destruct (x +:+ String c EmptyString) as [| b rest] eqn:Happ.
  - by destruct x.
  - change (but_last (String a (String b rest)))
      with (String a (but_last (String b rest))).
    by rewrite IH.
Qed.

(** X17.  [str] of a problem is its DIMACS export without the final
    newline: the lines joined by newlines, so that putting the newline back
    gives [dimacs_cnf] again.  The slice never cuts into a line, because the
    export always ends with a newline. *)
Theorem str_is_dimacs_without_newline (repr : E → string) (hash : E → Z) s :
  __str__ repr hash s = String.concat newline (dimacs_lines repr hash s)
  ∧ __str__ repr hash s +:+ newline = dimacs_cnf repr hash s.
Proof.
  assert (Hstr : __str__ repr hash s
                 = String.concat newline (dimacs_lines repr hash s)).
  { unfold __str__, dimacs_cnf, newline. apply but_last_snoc. }
  split; [done |]. by rewrite Hstr.
Qed.

End str_proofs.

(** ** The further properties on concrete problems *)

Section further_examples.
Import Reference.

Lemma includes_all_forces_all_witness :
  wf (init (E := string))
  ∧ ∃ ids : list Z,
      clauses (exec (includes_all abc) init)
      = clauses (init (E := string)) ++ map (λ i, [i]) ids
      ∧ ∀ v, cnf_true v (clauses (exec (includes_all abc) init)) = true
             ↔ cnf_true v (clauses (init (E := string))) = true
               ∧ Forall (λ i, v i = true) ids.
Proof.
  split; [exact wf_init |].
  destruct (includes_all_forces_all init abc wf_init)
    as (ids & _ & _ & Hc & _ & Hsem).
  exists ids. split; [exact Hc | exact Hsem].
Defined.

Example includes_all_abc :
  clauses (exec (includes_all abc) init) = [[1]; [2]; [3]].
Proof. by vm_compute. Qed.

Lemma has_codependencies_same_value_witness :
  wf (init (E := string))
  ∧ ∃ ids : list Z,
      eval (has_codependencies abc) init = inr tt
      ∧ ∀ v, cnf_true v (clauses (exec (has_codependencies abc) init)) = true
             ↔ cnf_true v (clauses (init (E := string))) = true
               ∧ ∀ j k, j ∈ ids → k ∈ ids → v j = v k.
Proof.
  split; [exact wf_init |].
  destruct (has_codependencies_same_value init abc wf_init)
    as (ids & _ & Hev & _ & _ & Hsem).
  exists ids. split; [exact Hev | exact Hsem].
Defined.

Example has_codependencies_abc :
  clauses (exec (has_codependencies abc) init)
  = [[1; -2]; [-1; 2]; [1; -3]; [-1; 3]; [2; -3]; [-2; 3]].
Proof. by vm_compute. Qed.

Lemma methods_only_extend_witness :
  wf (init (E := string))
  ∧ wf (exec (has_dependencies "a"%string None None) init)
  ∧ extends init (exec (includes_any abc 7) init).
Proof.
  split; [exact wf_init |].
  destruct (methods_only_extend (init (E := string)) wf_init)
    as (_ & _ & _ & _ & Hany & _ & _ & Hdep).
  split.
  - exact (proj1 (Hdep "a"%string None None)).
  - exact (proj2 (Hany abc 7)).
Defined.

Lemma variables_counts_elements_witness :
  wf a_or_b
  ∧ size (id2e a_or_b) = Z.to_nat (variables a_or_b)
  ∧ size (e2id a_or_b) = Z.to_nat (variables a_or_b).
Proof.
  split; [exact wf_a_or_b |].
  destruct (variables_counts_elements a_or_b wf_a_or_b) as (_ & H1 & H2).
  split; [exact H1 | exact H2].
Defined.

Lemma to_id_fresh_sequence_witness :
  NoDup abc
  ∧ Forall (λ e, e2id (init (E := string)) !! e = None) abc
  ∧ eval (mapM to_id abc) init = inr [1; 2; 3]
  ∧ variables (exec (mapM to_id abc) init) = 3.
Proof.
  assert (Hnd : NoDup abc)
    by (apply (bool_decide_unpack (NoDup abc)); vm_compute; exact I).
  assert (Hnew : Forall (λ e, e2id (init (E := string)) !! e = None) abc)
    by (repeat constructor).
  split; [exact Hnd |]. split; [exact Hnew |].
  exact (to_id_fresh_sequence init abc Hnd Hnew).
Defined.

Lemma maximal_solution_largest_witness :
  wf a_or_b
  ∧ ∃ best, maximal_solution a_or_b = inr (Some best)
            ∧ Forall (λ X : gset string, (size X ≤ size best)%nat)
                [{["b"%string]}; {["a"%string]}; {["a"%string; "b"%string]}].
Proof.
  split; [exact wf_a_or_b |].
  destruct (maximal_solution_largest a_or_b wf_a_or_b) as [Hmax _].
  destruct (Hmax [{["b"%string]}; {["a"%string]};
                  {["a"%string; "b"%string]}])
    as (best & Hrun & _ & Hall).
  - vm_compute. reflexivity.
  - discriminate.
  - exists best. split; [exact Hrun | exact Hall].
Defined.

Example maximal_solution_a_or_b :
  maximal_solution a_or_b = inr (Some {["a"%string; "b"%string]}).
Proof. vm_compute. reflexivity. Qed.

(** [includes x] followed by [excludes x]. *)
Definition x_and_not_x : AccessibleBSP (E := string) :=
  exec (excludes "x"%string) (exec (includes "x"%string) init).

Lemma x_and_not_x_sound :
  engine_sound_on (clauses x_and_not_x) ∧ solve (clauses x_and_not_x) ≠ UNKNOWN.
Proof.
  split; [split |].
  - intros m Hm. vm_compute in Hm. discriminate Hm.
  - vm_compute. constructor.
  - vm_compute. discriminate.
Qed.

Lemma unsatisfiable_queries_raise_witness :
  (∀ v, cnf_true v (clauses x_and_not_x) = false)
  ∧ solution x_and_not_x = inl UnsatisfiableConstraints
  ∧ maximal_solution x_and_not_x = inl UnsatisfiableConstraints
  ∧ partition_solutions 0 x_and_not_x (Some 2)
    = Some (inl UnsatisfiableConstraints).
Proof.
  assert (Hfalse : ∀ v, cnf_true v (clauses x_and_not_x) = false).
  { intros v. change (clauses x_and_not_x) with [[1]; [-1]].
    unfold cnf_true, clause_true, lit_true. simpl.
    change (- (-1)) with 1. by destruct (v 1). }
  destruct x_and_not_x_sound as [Hsound Hdec].
  destruct (unsatisfiable_queries_raise x_and_not_x Hfalse Hsound Hdec)
    as (Hsol & _ & _ & Hmax & Hpart).
  split; [exact Hfalse |]. split; [exact Hsol |]. split; [exact Hmax |].
  exact (Hpart O (Some 2)).
Defined.

Lemma includes_excludes_in_solutions_witness :
  wf (init (E := string))
  ∧ (∀ X, inr X ∈ solutions (exec (includes "a"%string) init)
          → "a"%string ∈ X)
  ∧ (∀ X, solution (exec (excludes "a"%string) init) = inr X
          → "a"%string ∉ X).
Proof.
  split; [exact wf_init |].
  destruct (includes_excludes_in_solutions init "a"%string wf_init)
    as [Hinc Hexc].
  split.
  - apply Hinc. split.
    + intros m Hm. vm_compute in Hm. injection Hm as <-. reflexivity.
    + vm_compute. repeat constructor.
  - apply Hexc. split.
    + intros m Hm. vm_compute in Hm. injection Hm as <-. reflexivity.
    + vm_compute. repeat constructor.
Defined.

Lemma includes_and_excludes_conflict_witness :
  wf (init (E := string))
  ∧ (∀ v, cnf_true v (clauses x_and_not_x) = false)
  ∧ solution x_and_not_x = inl UnsatisfiableConstraints.
Proof.
  split; [exact wf_init |].
  destruct (includes_and_excludes_conflict init "x"%string wf_init)
    as (Hfalse & _ & Hsol & _).
  split; [exact Hfalse |].
  destruct x_and_not_x_sound as [Hsound Hdec]. exact (Hsol Hsound Hdec).
Defined.

Lemma partition_solutions_within_limit_witness :
  wf a_or_b
  ∧ partition_solutions 10 a_or_b (Some 1)
    = Some (inr [{["b"%string]}; {["a"%string]}])
  ∧ pairwise_disjoint [{["b"%string]}; {["a"%string]}]
  ∧ Forall (λ X : gset string, Z.of_nat (size X) ≤ 1)
      [{["b"%string]}; {["a"%string]}].
Proof.
  assert (Hrun : partition_solutions 10 a_or_b (Some 1)
                 = Some (inr [{["b"%string]}; {["a"%string]}]))
    by (vm_compute; reflexivity).
  split; [exact wf_a_or_b |]. split; [exact Hrun |].
  destruct (partition_solutions_within_limit a_or_b 10 (Some 1) _
              wf_a_or_b Hrun)
    as (kept & _ & _ & Hdisj & _ & _ & Hsize & _).
  split; [exact Hdisj | exact (Hsize 1 eq_refl)].
Defined.

Lemma minimal_solution_first_witness :
  let s := exec (includes "a"%string) init in
  itersolve (clauses s) = [[1]]
  ∧ remap_solution s [1] = inr {["a"%string]}
  ∧ minimal_solution s = inr (Some {["a"%string]}).
Proof.
  intros s.
  assert (Hit : itersolve (clauses s) = [[1]]) by (vm_compute; reflexivity).
  assert (Hm : remap_solution s [1] = inr {["a"%string]})
    by (vm_compute; reflexivity).
  split; [exact Hit |]. split; [exact Hm |].
  exact (minimal_solution_first s [1] [] {["a"%string]} Hit Hm
           (or_introl eq_refl)).
Defined.

End further_examples.

(** ** The search is exhaustive *)

Section exhaustive_proofs.
Variable sols : list (gset Z).
Variable target : Z.

Implicit Types (v vtx p e : vertex) (s x : gset Z) (st : dfs_state).
Implicit Types (edges new : list vertex).







Variable x1 : gset Z.














End exhaustive_proofs.

Section exhaustive_search_proofs.
Variable sols : list (gset Z).
Variable target : Z.


End exhaustive_search_proofs.

Section exhaustive_claims.
Context {E : Type} `{Countable E}.
Context `{Engine}.

Implicit Types (s : AccessibleBSP (E := E)).



End exhaustive_claims.

Section exhaustive_examples.
Import Reference.


End exhaustive_examples.
